(** * PyCPIO: the newc header codec, the entry store and the CPIOWriter

    A shallow embedding of the parts of PyCPIO that write "newc" CPIO
    archives.  [CPIOWriter] (pycpio/writer/writer.py) is translated from
    its source, and so is the command line's [main] (pycpio/main.py), over
    the calls it makes on a [PyCPIO] object whose methods are left
    abstract.  The header class and the entry collection it relies on
    ([CPIOHeader], the [CPIOEntries] collection behind [bytes(cpio_entries)],
    and the archive reader) are modelled from the specification of the
    repository: their definitions below say so in their doc comments. *)

From Stdlib Require Import ZArith Lia Bool String Ascii List Sorted.
Import ListNotations.
Open Scope Z_scope.

(** Option chaining for the decoder. *)
Notation "'let?' p ':=' a 'in' b" :=
  (match a with Some p => b | None => None end)
  (at level 200, p pattern, a at level 100, b at level 200).

(** ** Bytes *)

Definition bytes := list Byte.byte.

Fixpoint bytes_eqb (a b : bytes) : bool :=
  match a, b with
  | [], [] => true
  | x :: a', y :: b' => Byte.eqb x y && bytes_eqb a' b'
  | _, _ => false
  end.

Definition zeros (n : nat) : bytes := repeat Byte.x00 n.

(** Number of NUL bytes that bring [n] to the next multiple of 4. *)
Definition pad4 (n : nat) : nat := ((4 - n mod 4) mod 4)%nat.

(** [take n l] splits off the first [n] bytes, failing on a short input. *)
Definition take (n : nat) (l : bytes) : option (bytes * bytes) :=
  if Nat.leb n (length l) then Some (firstn n l, skipn n l) else None.

(** ** Fixed-width ASCII hexadecimal fields *)

Definition hex_digit (d : Z) : Byte.byte :=
  match d with
  | 0 => Byte.x30 | 1 => Byte.x31 | 2 => Byte.x32 | 3 => Byte.x33
  | 4 => Byte.x34 | 5 => Byte.x35 | 6 => Byte.x36 | 7 => Byte.x37
  | 8 => Byte.x38 | 9 => Byte.x39 | 10 => Byte.x41 | 11 => Byte.x42
  | 12 => Byte.x43 | 13 => Byte.x44 | 14 => Byte.x45 | _ => Byte.x46
  end.

Definition hex_val (b : Byte.byte) : option Z :=
  match b with
  | Byte.x30 => Some 0 | Byte.x31 => Some 1 | Byte.x32 => Some 2
  | Byte.x33 => Some 3 | Byte.x34 => Some 4 | Byte.x35 => Some 5
  | Byte.x36 => Some 6 | Byte.x37 => Some 7 | Byte.x38 => Some 8
  | Byte.x39 => Some 9
  | Byte.x41 | Byte.x61 => Some 10 | Byte.x42 | Byte.x62 => Some 11
  | Byte.x43 | Byte.x63 => Some 12 | Byte.x44 | Byte.x64 => Some 13
  | Byte.x45 | Byte.x65 => Some 14 | Byte.x46 | Byte.x66 => Some 15
  | _ => None
  end.

(** The [n] low hexadecimal digits of [v], most significant first. *)
Fixpoint hexn (n : nat) (v : Z) : bytes :=
  match n with
  | O => []
  | S n' => hexn n' (v / 16) ++ [hex_digit (v mod 16)]
  end.

Definition hex_step (acc : option Z) (b : Byte.byte) : option Z :=
  match acc, hex_val b with
  | Some a, Some d => Some (a * 16 + d)
  | _, _ => None
  end.

Definition parse_hex (l : bytes) : option Z := fold_left hex_step l (Some 0).

(** A numeric header field: exactly 8 hex digits, zero padded. *)
Definition hex8 (v : Z) : bytes := hexn 8 v.

(** ** HeaderRecord (newc) *)

Record header := mkHeader {
  h_ino : Z; h_mode : Z; h_uid : Z; h_gid : Z; h_nlink : Z; h_mtime : Z;
  h_filesize : Z; h_devmajor : Z; h_devminor : Z; h_rdevmajor : Z;
  h_rdevminor : Z; h_namesize : Z; h_check : Z; h_name : bytes }.

(** The magic of the newc structure, "070701". *)
Definition newc_magic : bytes := [Byte.x30; Byte.x37; Byte.x30; Byte.x37; Byte.x30; Byte.x31].

Definition header_numbers (h : header) : list Z :=
  [h_ino h; h_mode h; h_uid h; h_gid h; h_nlink h; h_mtime h; h_filesize h;
   h_devmajor h; h_devminor h; h_rdevmajor h; h_rdevminor h; h_namesize h;
   h_check h].

(** Modelled from the spec: [bytes(CPIOHeader)] (pycpio/header, not in the
    sources).  Magic, 13 fields of 8 hex digits (110 bytes), the name and its
    terminating NUL, NUL padding to the next 4-byte boundary. *)
Definition encode_header (h : header) : bytes :=
  newc_magic ++ flat_map hex8 (header_numbers h) ++ h_name h ++ [Byte.x00]
  ++ zeros (pad4 (110 + S (length (h_name h)))).

Fixpoint parse_fields (k : nat) (l : bytes) : option (list Z * bytes) :=
  match k with
  | O => Some ([], l)
  | S k' =>
      let? (d, r) := take 8 l in
      let? v := parse_hex d in
      let? (vs, r') := parse_fields k' r in
      Some (v :: vs, r')
  end.

(** Modelled from the spec: decoding one record (header, name, content) of
    the archive reader (not in the sources).  Fails on a bad magic, a field
    that is not 8 hex digits, or a truncated input; returns the header, the
    content and the rest of the input. *)
Definition decode_record (l : bytes) : option (header * bytes * bytes) :=
  let? (m, r1) := take 6 l in
  if bytes_eqb m newc_magic then
    let? (vs, r2) := parse_fields 13 r1 in
    match vs with
    | [ino; mode; uid; gid; nlink; mtime; filesize; devmajor; devminor;
       rdevmajor; rdevminor; namesize; check] =>
        let ns := Z.to_nat namesize in
        let? (nf, r3) := take ns r2 in
        let? (_, r4) := take (pad4 (110 + ns)) r3 in
        let fs := Z.to_nat filesize in
        let? (c, r5) := take fs r4 in
        let? (_, r6) := take (pad4 fs) r5 in
        Some (mkHeader ino mode uid gid nlink mtime filesize devmajor devminor
                rdevmajor rdevminor namesize check (firstn (ns - 1) nf), c, r6)
    | _ => None
    end
  else None.

(** ** ArchiveEntry and EntryStore *)

(** The metadata an appender supplies for one entry. *)
Record fields := mkFields {
  f_mode : Z; f_uid : Z; f_gid : Z; f_mtime : Z;
  f_devmajor : Z; f_devminor : Z; f_rdevmajor : Z; f_rdevminor : Z }.

(** The content hash is the SHA-256 digest of the content; digest collisions
    are out of scope, so the digest is represented by the content itself. *)
Record entry := mkEntry { e_header : header; e_content : bytes; e_hash : bytes }.

(** The ordered path map, the inode counter, and the index from
    (content hash, file type) to the inode first given to that content. *)
Record store := mkStore {
  st_entries : list (bytes * entry);
  st_next_ino : Z;
  st_hashes : list ((bytes * Z) * Z) }.

Definition empty_store : store := mkStore [] 1 [].

Definition S_IFMT : Z := 61440.    (* 0o170000 *)
Definition S_IFDIR : Z := 16384.   (* 0o040000 *)
Definition S_IFLNK : Z := 40960.   (* 0o120000 *)
Definition S_IFREG : Z := 32768.   (* 0o100000 *)

Definition ftype (mode : Z) : Z := Z.land mode S_IFMT.

(** Directories and symlinks are never deduplicated. *)
Definition dedup_eligible (t : Z) : bool := negb ((t =? S_IFDIR) || (t =? S_IFLNK)).

Definition key_eqb (k1 k2 : bytes * Z) : bool :=
  bytes_eqb (fst k1) (fst k2) && (snd k1 =? snd k2).

Fixpoint hash_lookup (k : bytes * Z) (l : list ((bytes * Z) * Z)) : option Z :=
  match l with
  | [] => None
  | (k', i) :: l' => if key_eqb k k' then Some i else hash_lookup k l'
  end.

Definition ino_of_entry (pe : bytes * entry) : Z := h_ino (e_header (snd pe)).

Definition count_ino (ino : Z) (es : list (bytes * entry)) : nat :=
  length (filter (fun pe => ino_of_entry pe =? ino) es).

Definition set_nlink (n : Z) (e : entry) : entry :=
  let h := e_header e in
  mkEntry (mkHeader (h_ino h) (h_mode h) (h_uid h) (h_gid h) n (h_mtime h)
             (h_filesize h) (h_devmajor h) (h_devminor h) (h_rdevmajor h)
             (h_rdevminor h) (h_namesize h) (h_check h) (h_name h))
          (e_content e) (e_hash e).

(** Modelled from the spec: building a HeaderRecord from keyword metadata;
    [namesize] is derived from the name (with its NUL), [check] is 0. *)
Definition mk_header (ino : Z) (f : fields) (nlink filesize : Z) (name : bytes) : header :=
  mkHeader ino (f_mode f) (f_uid f) (f_gid f) nlink (f_mtime f) filesize
    (f_devmajor f) (f_devminor f) (f_rdevmajor f) (f_rdevminor f)
    (Z.of_nat (length name) + 1) 0 name.

(** Insertion at [p]: an existing path keeps its position and gets the new
    entry, a new path goes to the end. *)
Fixpoint insert_replace (p : bytes) (e : entry) (es : list (bytes * entry)) : list (bytes * entry) :=
  match es with
  | [] => [(p, e)]
  | (q, e') :: es' => if bytes_eqb p q then (p, e) :: es' else (q, e') :: insert_replace p e es'
  end.

(** Modelled from the spec: [EntryStore.append] (the [CPIOEntries]
    collection, not in the sources).  Content seen before with the same file
    type (not a directory or symlink) reuses that inode, stores no content and
    a zero [filesize], and every entry of the inode gets the new link count;
    other content gets a fresh inode and is registered in the index. *)
Definition append (st : store) (p : bytes) (f : fields) (c : bytes) : store :=
  let key := (c, ftype (f_mode f)) in
  let es := st_entries st in
  match (if dedup_eligible (ftype (f_mode f)) then hash_lookup key (st_hashes st) else None) with
  | Some ino =>
      let n := Z.of_nat (count_ino ino es) + 1 in
      let es' := map (fun pe => if ino_of_entry pe =? ino then (fst pe, set_nlink n (snd pe)) else pe) es in
      mkStore (insert_replace p (mkEntry (mk_header ino f n 0 p) [] c) es')
              (st_next_ino st) (st_hashes st)
  | None =>
      let ino := st_next_ino st in
      mkStore (insert_replace p (mkEntry (mk_header ino f 1 (Z.of_nat (length c)) p) c c) es)
              (ino + 1) ((key, ino) :: st_hashes st)
  end.

(** [list()]: the paths in store order. *)
Definition paths (st : store) : list bytes := map fst (st_entries st).

Fixpoint lookup (p : bytes) (es : list (bytes * entry)) : option entry :=
  match es with
  | [] => None
  | (q, e) :: es' => if bytes_eqb p q then Some e else lookup p es'
  end.

Definition ino_at (st : store) (p : bytes) : option Z :=
  option_map (fun e => h_ino (e_header e)) (lookup p (st_entries st)).

(** A store built by appending [(path, fields, content)] triples in order. *)
Definition build_from (st : store) (ops : list (bytes * fields * bytes)) : store :=
  fold_left (fun s '(p, f, c) => append s p f c) ops st.

Definition build (ops : list (bytes * fields * bytes)) : store := build_from empty_store ops.

(** ** Serialization *)

(** Modelled from the spec: [bytes(ArchiveEntry)], the encoded header
    followed by the content padded to a 4-byte boundary. *)
Definition entry_bytes (e : entry) : bytes :=
  encode_header (e_header e) ++ e_content e ++ zeros (pad4 (length (e_content e))).

(** Modelled from the spec: [bytes(cpio_entries)], every entry in store order. *)
Definition entries_bytes (es : list (bytes * entry)) : bytes :=
  flat_map (fun pe => entry_bytes (snd pe)) es.

Definition trailer_name : bytes := list_byte_of_string "TRAILER!!!".

Definition zero_fields : fields := mkFields 0 0 0 0 0 0 0 0.

(** Modelled from the spec: [CPIOHeader(name="TRAILER!!!")], numeric
    fields zero except [nlink = 1] and the derived [namesize]. *)
Definition trailer : header := mk_header 0 zero_fields 1 0 trailer_name.

(** ** Reading an archive back *)

Definition fields_of (h : header) : fields :=
  mkFields (h_mode h) (h_uid h) (h_gid h) (h_mtime h) (h_devmajor h)
    (h_devminor h) (h_rdevmajor h) (h_rdevminor h).

Definition is_trailer (h : header) : bool :=
  bytes_eqb (h_name h) trailer_name && (h_filesize h =? 0).

(** Modelled from the spec: the ingestion loop.  Every record but the
    trailer goes through [append]; the loop stops at the trailer.  Each
    record takes at least 110 bytes, so [length l + 1] rounds always suffice. *)
Fixpoint ingest_loop (fuel : nat) (l : bytes) (st : store) : option store :=
  match fuel with
  | O => None
  | S fuel' =>
      let? (h, c, r) := decode_record l in
      if is_trailer h then Some st
      else ingest_loop fuel' r (append st (h_name h) (fields_of h) c)
  end.

Definition ingest (l : bytes) (st : store) : option store := ingest_loop (S (length l)) l st.

(** ** Python values handled by CPIOWriter *)

(** The values [compression] and [compression_level] can take. *)
Inductive PyVal :=
| VBool (b : bool)
| VInt (z : Z)
| VStr (s : string)
| VNone.

Definition truthy (v : PyVal) : bool :=
  match v with
  | VBool b => b
  | VInt z => negb (z =? 0)
  | VStr s => negb (String.eqb s EmptyString)
  | VNone => false
  end.

(** Python's [a or b]. *)
Definition py_or (a b : PyVal) : PyVal := if truthy a then a else b.

Definition ascii_lower (c : ascii) : ascii :=
  let n := nat_of_ascii c in
  if (Nat.leb 65 n && Nat.leb n 90)%bool then ascii_of_nat (n + 32) else c.

Definition ascii_upper (c : ascii) : ascii :=
  let n := nat_of_ascii c in
  if (Nat.leb 97 n && Nat.leb n 122)%bool then ascii_of_nat (n - 32) else c.

(** [str.lower] and [str.upper] on ASCII strings. *)
Fixpoint lower (s : string) : string :=
  match s with EmptyString => EmptyString | String c s' => String (ascii_lower c) (lower s') end.

Fixpoint upper (s : string) : string :=
  match s with EmptyString => EmptyString | String c s' => String (ascii_upper c) (upper s') end.

(** [lzma.CHECK_CRC32]. *)
Definition CHECK_CRC32 : Z := 1.

(** ** CPIOWriter (pycpio/writer/writer.py) *)

Record CPIOWriter := mkWriter {
  cpio_entries : store;
  output_file : string;
  compression : PyVal;
  compression_level : PyVal;
  xz_crc : Z }.

(** [CPIOWriter.__init__]; [None] for an omitted keyword argument.  Only
    the newc structure is modelled, so [structure] is not kept. *)
Definition CPIOWriter_init (cpio_entries_arg : store) (output_file_arg : string)
    (compression_arg compression_level_arg : option PyVal) (xz_crc_arg : option Z) : CPIOWriter :=
  let compression0 := match compression_arg with Some v => v | None => VBool false end in
  let level0 := match compression_level_arg with Some v => v | None => VInt 10 end in
  let xz := match xz_crc_arg with Some v => v | None => CHECK_CRC32 end in
  let self_compression := py_or compression0 (VBool false) in
  let self_level := py_or level0 (VInt 10) in
  let self_compression :=
    match compression0 with
    | VStr str =>
        let str' := lower str in
        if String.eqb str' "true" then VBool true
        else if String.eqb str' "false" then VBool false
        else VStr str'
    | _ => self_compression
    end in
  mkWriter cpio_entries_arg output_file_arg self_compression self_level xz.

(** [CPIOWriter.__bytes__]: the entries, then the trailer built here. *)
Definition CPIOWriter_bytes (w : CPIOWriter) : bytes :=
  let cpio_bytes := entries_bytes (st_entries (cpio_entries w)) in
  cpio_bytes ++ encode_header trailer.

(** ** Effects: a trace of observable events and Python exceptions *)

Inductive level := Debug | Info | Warning.

Inductive event :=
| EvLog (l : level)
| EvOpen (path : string)
| EvWrite (data : bytes)
| EvFlush
| EvFsync
| EvClose.

Inductive exn := UnavailableCompression | AttributeError.

(** A computation extends the trace and returns a value or raises. *)
Definition M (A : Type) : Type := list event -> list event * (exn + A).

Definition ret {A} (a : A) : M A := fun tr => (tr, inr a).
Definition raise {A} (x : exn) : M A := fun tr => (tr, inl x).
Definition emit (ev : event) : M unit := fun tr => (tr ++ [ev], inr tt).
Definition log (l : level) : M unit := emit (EvLog l).

Definition bind {A B} (m : M A) (k : A -> M B) : M B :=
  fun tr => match m tr with
            | (tr', inl x) => (tr', inl x)
            | (tr', inr a) => k a tr'
            end.

Notation "x <- m ;; k" := (bind m (fun x => k)) (at level 61, m at next level, right associativity).
Notation "m ;; k" := (bind m (fun _ => k)) (at level 61, right associativity).

(** [with open(path, "wb") as f: body]: the handle is closed whether the
    body returns or raises, and the body's outcome is passed on. *)
Definition with_open {A} (path : string) (body : M A) : M A :=
  fun tr => match body (tr ++ [EvOpen path]) with
            | (tr', r) => (tr' ++ [EvClose], r)
            end.

(** The branch chosen by the if/elif chain of [compress]. *)
Inductive selected := SelXz | SelZstd | SelUnsupported | SelNone.

Definition py_eq_str (v : PyVal) (s : string) : bool :=
  match v with VStr s' => String.eqb s' s | _ => false end.

Definition py_is_true (v : PyVal) : bool :=
  match v with VBool true => true | _ => false end.

Definition py_is_false (v : PyVal) : bool :=
  match v with VBool false => true | _ => false end.

Definition select (c : PyVal) : selected :=
  if py_eq_str c "xz" || py_is_true c then SelXz
  else if py_eq_str c "zstd" then SelZstd
  else if negb (py_is_false c) then SelUnsupported
  else SelNone.

(** [self.compression.upper()]: only a string has [upper]. *)
Definition py_upper (v : PyVal) : M string :=
  match v with VStr s => ret (upper s) | _ => raise AttributeError end.

Section Writer.

(** Whether [__import__] of a module succeeds, and the two compressors
    ([lzma.compress] with its [check] argument, [zstandard.compress] with
    its level). *)
Variable importable : string -> bool.
Variable lzma_compress : Z -> bytes -> bytes.
Variable zstandard_compress : PyVal -> bytes -> bytes.

(** The part of [compress] after the scheme has been chosen. *)
Definition run_compressor (module : string) (compressor : bytes -> bytes)
    (w : CPIOWriter) (data : bytes) : M bytes :=
  if importable module then
    log Debug ;;
    _ <- py_upper (compression w) ;;
    log Info ;;
    ret (compressor data)
  else raise UnavailableCompression.

(** [CPIOWriter.compress]. *)
Definition compress (w : CPIOWriter) (data : bytes) : M bytes :=
  match select (compression w) with
  | SelXz => run_compressor "lzma" (lzma_compress (xz_crc w)) w data
  | SelZstd => run_compressor "zstandard" (zstandard_compress (compression_level w)) w data
  | SelUnsupported => raise UnavailableCompression
  | SelNone => log Info ;; ret data
  end.

(** [CPIOWriter.write]. *)
Definition write (w : CPIOWriter) (safe_write : bool) : M unit :=
  log Debug ;;
  data <- compress w (CPIOWriter_bytes w) ;;
  with_open (output_file w)
    (emit (EvWrite data) ;;
     if safe_write then emit EvFlush ;; emit EvFsync
     else log Warning) ;;
  log Info.

End Writer.

(** ** The command line (pycpio/main.py) *)

(** The parsed arguments of [main]: [None] for an option not given.  The
    [-u], [-g] and [-m] options only reach the [PyCPIO] constructor and are not
    kept. *)
Record Args := mkArgs {
  a_input : option string;
  a_append : option string;
  a_recursive : bool;
  a_relative : option string;
  a_absolute : bool;
  a_rm : option string;
  a_name : option string;
  a_symlink : option string;
  a_chardev : option string;
  a_major : option Z;
  a_minor : option Z;
  a_output : option string;
  a_list : bool;
  a_print : bool }.

(** The calls [main] makes on its [PyCPIO] object; for the two [append]
    methods, [None] for a keyword argument not passed. *)
Inductive call :=
| CInit
| CReadCpioFile (path : string)
| CRemoveCpio (name : string)
| CAddSymlink (name target : string)
| CAddChardev (name : string) (major minor : Z)
| CAppendRecursive (relative : option string) (path : string) (name : option string)
    (absolute : option bool)
| CAppendCpio (relative : option string) (path : string) (name : option string)
    (absolute : option bool)
| CWriteCpioFile (path : string)
| CListFiles
| CStr.

(** What [main] does that can be observed: its calls, and lines printed. *)
Inductive mevent := MCall (c : call) | MStdout.

Inductive main_exn := ValueError | PyCPIOError.

Definition MainM (A : Type) : Type := list mevent -> list mevent * (main_exn + A).

Definition mret {A} (a : A) : MainM A := fun tr => (tr, inr a).
Definition mraise {A} (x : main_exn) : MainM A := fun tr => (tr, inl x).

Definition mbind {A B} (m : MainM A) (k : A -> MainM B) : MainM B :=
  fun tr => match m tr with
            | (tr', inl x) => (tr', inl x)
            | (tr', inr a) => k a tr'
            end.

Notation "m ;;; k" := (mbind m (fun _ => k)) (at level 61, right associativity).

(** Truth of an optional string or int argument: [None], [""] and [0] are
    false. *)
Definition str_truthy (o : option string) : bool :=
  match o with Some s => negb (String.eqb s EmptyString) | None => false end.

Definition int_truthy (o : option Z) : bool :=
  match o with Some z => negb (z =? 0) | None => false end.

Definition opt_str (o : option string) : string := match o with Some s => s | None => EmptyString end.
Definition opt_int (o : option Z) : Z := match o with Some z => z | None => 0 end.

Section Main.

(** [Path(...)] of a string, and whether a [PyCPIO] method returns (true)
    or raises (false), given the events so far. *)
Variable path_of : string -> string.
Variable method_ok : list mevent -> call -> bool.

Definition invoke (c : call) : MainM unit :=
  fun tr => if method_ok tr c then (tr ++ [MCall c], inr tt)
            else (tr ++ [MCall c], inl PyCPIOError).

Definition mprint : MainM unit := fun tr => (tr ++ [MStdout], inr tt).

(** The blocks of [main], in order. *)
Definition main_input (a : Args) : MainM unit :=
  if str_truthy (a_input a) then invoke (CReadCpioFile (path_of (opt_str (a_input a))))
  else mret tt.

Definition main_rm (a : Args) : MainM unit :=
  if str_truthy (a_rm a) then invoke (CRemoveCpio (opt_str (a_rm a))) else mret tt.

Definition main_symlink (a : Args) : MainM unit :=
  if str_truthy (a_symlink a) then
    if negb (str_truthy (a_name a)) then mraise ValueError
    else invoke (CAddSymlink (opt_str (a_name a)) (opt_str (a_symlink a)))
  else mret tt.

Definition main_chardev (a : Args) : MainM unit :=
  if str_truthy (a_chardev a) then
    if negb (int_truthy (a_major a)) || negb (int_truthy (a_minor a)) then mraise ValueError
    else invoke (CAddChardev (opt_str (a_chardev a)) (opt_int (a_major a)) (opt_int (a_minor a)))
  else mret tt.

Definition main_append (a : Args) : MainM unit :=
  if str_truthy (a_append a) then
    let relative := if str_truthy (a_relative a) then a_relative a else None in
    let path := path_of (opt_str (a_append a)) in
    let name := if str_truthy (a_name a) then a_name a else None in
    let absolute := if a_absolute a then Some true else None in
    if a_recursive a then invoke (CAppendRecursive relative path name absolute)
    else invoke (CAppendCpio relative path name absolute)
  else mret tt.

Definition main_output (a : Args) : MainM unit :=
  if str_truthy (a_output a) then invoke (CWriteCpioFile (path_of (opt_str (a_output a))))
  else mret tt.

Definition main_list (a : Args) : MainM unit :=
  if a_list a then invoke CListFiles ;;; mprint else mret tt.

Definition main_print (a : Args) : MainM unit :=
  if a_print a then invoke CStr ;;; mprint else mret tt.

(** [main], once the arguments are parsed. *)
Definition main (a : Args) : MainM unit :=
  invoke CInit ;;;
  main_input a ;;;
  main_rm a ;;;
  main_symlink a ;;;
  main_chardev a ;;;
  main_append a ;;;
  main_output a ;;;
  main_list a ;;;
  main_print a.

End Main.

(** The position of each call in [main]'s order. *)
Definition rank (c : call) : nat :=
  match c with
  | CInit => 0 | CReadCpioFile _ => 1 | CRemoveCpio _ => 2 | CAddSymlink _ _ => 3
  | CAddChardev _ _ _ => 4 | CAppendRecursive _ _ _ _ => 5 | CAppendCpio _ _ _ _ => 5
  | CWriteCpioFile _ => 6 | CListFiles => 7 | CStr => 8
  end.

Fixpoint calls (tr : list mevent) : list call :=
  match tr with
  | [] => []
  | MCall c :: tr' => c :: calls tr'
  | MStdout :: tr' => calls tr'
  end.

(** The calls of a trace are made in [main]'s order, each below rank [k]. *)
Definition rank_inv (k : nat) (tr : list mevent) : Prop :=
  StronglySorted lt (map rank (calls tr)) /\ Forall (fun r => r < k)%nat (map rank (calls tr)).

Definition rank_pres {A} (i j : nat) (m : MainM A) : Prop :=
  forall tr, rank_inv i tr -> rank_inv j (fst (m tr)).

(** A step only adds events after those already there. *)
Definition grows {A} (m : MainM A) : Prop :=
  forall tr, exists ext, fst (m tr) = tr ++ ext.

(** A block that raises either raised [ValueError] itself or ran a
    [PyCPIO] method that raised. *)
Definition raise_ok (method_ok : list mevent -> call -> bool) {A} (m : MainM A) : Prop :=
  forall tr t x, m tr = (t, inl x) -> x = ValueError \/ exists tr' c, method_ok tr' c = false.

(** Whether the block of [main] at rank [r] (1 to 5: input, rm, symlink,
    chardev, append) was asked for on the command line. *)
Definition requested (a : Args) (r : nat) : bool :=
  match r with
  | 1%nat => str_truthy (a_input a)
  | 2%nat => str_truthy (a_rm a)
  | 3%nat => str_truthy (a_symlink a)
  | 4%nat => str_truthy (a_chardev a)
  | 5%nat => str_truthy (a_append a)
  | _ => false
  end.

Example hex8_255 : hex8 255 = list_byte_of_string "000000FF".
Proof. reflexivity. Qed.

Example parse_hex8_255 : parse_hex (hex8 255) = Some 255.
Proof. reflexivity. Qed.

(** ** Auxiliary notions for the proofs *)

(** Each numeric field as it reads back from its 8 hex digits. *)
Definition norm32 (h : header) : header :=
  mkHeader (h_ino h mod 2 ^ 32) (h_mode h mod 2 ^ 32) (h_uid h mod 2 ^ 32)
    (h_gid h mod 2 ^ 32) (h_nlink h mod 2 ^ 32) (h_mtime h mod 2 ^ 32)
    (h_filesize h mod 2 ^ 32) (h_devmajor h mod 2 ^ 32) (h_devminor h mod 2 ^ 32)
    (h_rdevmajor h mod 2 ^ 32) (h_rdevminor h mod 2 ^ 32) (h_namesize h mod 2 ^ 32)
    (h_check h mod 2 ^ 32) (h_name h).

(** A header whose [namesize] and [filesize] describe its name and content
    and fit in 32 bits. *)
Definition hdr_ok (h : header) (c : bytes) : Prop :=
  h_namesize h = Z.of_nat (length (h_name h)) + 1
  /\ Z.of_nat (length (h_name h)) + 1 < 2 ^ 32
  /\ h_filesize h = Z.of_nat (length c)
  /\ Z.of_nat (length c) < 2 ^ 32.

Definition fields_ok (f : fields) : Prop :=
  0 <= f_mode f < 2 ^ 32 /\ 0 <= f_uid f < 2 ^ 32 /\ 0 <= f_gid f < 2 ^ 32
  /\ 0 <= f_mtime f < 2 ^ 32 /\ 0 <= f_devmajor f < 2 ^ 32
  /\ 0 <= f_devminor f < 2 ^ 32 /\ 0 <= f_rdevmajor f < 2 ^ 32
  /\ 0 <= f_rdevminor f < 2 ^ 32.

(** An entry that reads back as itself: sizes right, fields within 32 bits,
    and not taken for the trailer. *)
Definition entry_ok (pe : bytes * entry) : Prop :=
  hdr_ok (e_header (snd pe)) (e_content (snd pe))
  /\ fields_ok (fields_of (e_header (snd pe)))
  /\ is_trailer (e_header (snd pe)) = false.

(** The [append] call that ingestion makes for an entry it reads back. *)
Definition replay_op (pe : bytes * entry) : bytes * fields * bytes :=
  (h_name (e_header (snd pe)), fields_of (e_header (snd pe)), e_content (snd pe)).

Definition op_key (op : bytes * fields * bytes) : bytes * Z :=
  let '(_, f, c) := op in (c, ftype (f_mode f)).

(** The keys under which appending [ops] registers content that can be
    deduplicated. *)
Definition elig_keys (ops : list (bytes * fields * bytes)) : list (bytes * Z) :=
  flat_map (fun op => if dedup_eligible (snd (op_key op)) then [op_key op] else []) ops.

Definition entry_key (pe : bytes * entry) : bytes * Z :=
  (e_content (snd pe), ftype (h_mode (e_header (snd pe)))).

Definition entry_elig_keys (es : list (bytes * entry)) : list (bytes * Z) :=
  flat_map (fun pe => if dedup_eligible (snd (entry_key pe)) then [entry_key pe] else []) es.

(** The entry a fresh (not deduplicated) append stores. *)
Definition canon (p : bytes) (f : fields) (c : bytes) (ino : Z) : entry :=
  mkEntry (mk_header ino f 1 (Z.of_nat (length c)) p) c c.

(** An entry with its inode number blanked out. *)
Definition strip_entry (e : entry) : entry :=
  let h := e_header e in
  mkEntry (mkHeader 0 (h_mode h) (h_uid h) (h_gid h) (h_nlink h) (h_mtime h)
             (h_filesize h) (h_devmajor h) (h_devminor h) (h_rdevmajor h)
             (h_rdevminor h) (h_namesize h) (h_check h) (h_name h))
          (e_content e) (e_hash e).

Definition strip_pe (pe : bytes * entry) : bytes * entry := (fst pe, strip_entry (snd pe)).

Definition canon_fold (es : list (bytes * entry)) (ops : list (bytes * fields * bytes)) :
    list (bytes * entry) :=
  fold_left (fun acc '(p, f, c) => insert_replace p (canon p f c 0) acc) ops es.

(** An appended triple that fits the 32-bit header and is not the trailer. *)
Definition op_ok (op : bytes * fields * bytes) : Prop :=
  let '(p, f, c) := op in
  fields_ok f /\ Z.of_nat (length p) + 1 < 2 ^ 32 /\ Z.of_nat (length c) < 2 ^ 32
  /\ ~ (p = trailer_name /\ c = []).

(** What holds of a store all of whose appends took a fresh inode. *)
Definition fresh_inv (st : store) : Prop :=
  let es := st_entries st in
  NoDup (map fst es)
  /\ NoDup (map ino_of_entry es)
  /\ (forall pe, In pe es -> ino_of_entry pe < st_next_ino st)
  /\ NoDup (entry_elig_keys es)
  /\ (forall k, In k (entry_elig_keys es) -> In k (map fst (st_hashes st)))
  /\ (forall pe, In pe es -> exists f c, op_ok (fst pe, f, c) /\ snd pe = canon (fst pe) f c (ino_of_entry pe)).

Definition canon_op (op : bytes * fields * bytes) : bytes * entry :=
  let '(p, f, c) := op in (p, canon p f c 0).

Definition op_path (op : bytes * fields * bytes) : bytes := fst (fst op).

(** The paths of a sequence in the order each first appears: [seen] is
    extended by every path not in it yet. *)
Definition first_seen_from (seen ps : list bytes) : list bytes :=
  fold_left (fun acc p => if existsb (bytes_eqb p) acc then acc else acc ++ [p]) ps seen.

Definition first_seen (ps : list bytes) : list bytes := first_seen_from [] ps.

(** The records of a byte string, decoded one after the other until the
    input is used up. *)
Fixpoint records (fuel : nat) (l : bytes) : option (list (header * bytes)) :=
  match fuel with
  | O => None
  | S fuel' =>
      let? (h, c, r) := decode_record l in
      match r with
      | [] => Some [(h, c)]
      | _ :: _ => let? rest := records fuel' r in Some ((h, c) :: rest)
      end
  end.

(** Every entry of the store is named by its path, and its header
    describes its name and content and has 32-bit fields. *)
Definition layout_inv (st : store) : Prop :=
  forall pe, In pe (st_entries st) ->
    h_name (e_header (snd pe)) = fst pe
    /\ hdr_ok (e_header (snd pe)) (e_content (snd pe))
    /\ fields_ok (fields_of (e_header (snd pe))).

(** The bytes after each name in its name field: the NUL terminator and the
    alignment padding of header plus name. *)
(** The store while [N] paths with one content and one file type [t] are
    appended: the first keeps the content, the later ones are stored empty. *)
Definition dedup_shape (t : Z) (c : bytes) (st : store) (done : list bytes) : Prop :=
  map fst (st_entries st) = done
  /\ map (fun pe => e_content (snd pe)) (st_entries st)
     = match done with [] => [] | _ :: r => c :: map (fun _ => []) r end
  /\ (forall pe, In pe (st_entries st) -> h_name (e_header (snd pe)) = fst pe)
  /\ exists i, hash_lookup (c, t) (st_hashes st) = Some i.

Definition namepad (ps : list bytes) : nat :=
  list_sum (map (fun p => S (pad4 (110 + S (length p)))) ps).

Definition total_name_length (ps : list bytes) : nat := list_sum (map (@length Byte.byte) ps).

(** ** Concrete inputs *)

(** A regular file, mode 0o100644. *)
Definition reg_fields : fields := mkFields (S_IFREG + 420) 0 0 0 0 0 0 0.

(** A symlink, mode 0o120777. *)
Definition lnk_fields : fields := mkFields (S_IFLNK + 511) 0 0 0 0 0 0 0.

(** An executable regular file, mode 0o100755, owned by uid 1000. *)
Definition exe_fields : fields := mkFields (S_IFREG + 493) 1000 0 0 0 0 0 0.

Definition path_a : bytes := list_byte_of_string "a".
Definition path_b : bytes := list_byte_of_string "b".
Definition content_test : bytes := list_byte_of_string "test".

Definition writer_of (st : store) : CPIOWriter :=
  CPIOWriter_init st "archive.cpio" None None None.

(** ** Lemmas on the writer *)

Lemma select_supported (c : PyVal) :
  c <> VBool false -> c <> VBool true -> c <> VStr "xz" -> c <> VStr "zstd" ->
  select c = SelUnsupported.
Proof.
  intros Hf Ht Hx Hz. unfold select, py_eq_str, py_is_true, py_is_false.
  destruct c as [[|]| |str|]; try congruence; try reflexivity.
  destruct (String.eqb_spec str "xz"); [subst; congruence|].
  destruct (String.eqb_spec str "zstd"); [subst; congruence|].
  reflexivity.
Qed.

Lemma select_xz_inv (c : PyVal) : select c = SelXz -> c = VStr "xz" \/ c = VBool true.
Proof.
  unfold select, py_eq_str, py_is_true, py_is_false.
  destruct c as [[|]| |str|]; try discriminate; auto.
  destruct (String.eqb_spec str "xz"); [subst; auto|].
  destruct (String.eqb str "zstd"); discriminate.
Qed.

Lemma select_zstd_inv (c : PyVal) : select c = SelZstd -> c = VStr "zstd".
Proof.
  unfold select, py_eq_str, py_is_true, py_is_false.
  destruct c as [[|]| |str|]; try discriminate.
  destruct (String.eqb str "xz"); [discriminate|].
  destruct (String.eqb_spec str "zstd"); [subst; auto|discriminate].
Qed.

Lemma select_none_inv (c : PyVal) : select c = SelNone -> c = VBool false.
Proof.
  unfold select, py_eq_str, py_is_true, py_is_false.
  destruct c as [[|]| |str|]; try discriminate; auto.
  destruct (String.eqb str "xz"); [discriminate|].
  destruct (String.eqb str "zstd"); discriminate.
Qed.

(** C2: an unsupported compression value makes [write] raise
    [UnavailableCompression] from [compress], before [open]: the trace only
    gained the first debug message, with no open and no write. *)
Theorem write_unsupported_before_open importable lzma_compress zstandard_compress
    (w : CPIOWriter) (safe_write : bool) (tr : list event) :
  compression w <> VBool false -> compression w <> VBool true ->
  compression w <> VStr "xz" -> compression w <> VStr "zstd" ->
  write importable lzma_compress zstandard_compress w safe_write tr
  = (tr ++ [EvLog Debug], inl UnavailableCompression).
Proof.
  intros Hf Ht Hx Hz.
  unfold write, compress, bind, log, emit.
  rewrite (select_supported _ Hf Ht Hx Hz). reflexivity.
Qed.

(** C6 (counterexample): the trailer's [namesize] is 11, not 0. *)
Lemma trailer_namesize_not_zero : h_namesize trailer = 11 /\ h_namesize trailer <> 0.
Proof. split; [reflexivity | discriminate]. Qed.

(** C7: once [compress] returns, [write] opens the file, writes the data,
    then flushes and fsyncs before closing when [safe_write] is set, or logs
    a warning and closes when it is not; neither case raises. *)
Theorem write_durability importable lzma_compress zstandard_compress
    (w : CPIOWriter) (safe_write : bool) (tr tr1 : list event) (data : bytes) :
  compress importable lzma_compress zstandard_compress w (CPIOWriter_bytes w) (tr ++ [EvLog Debug])
    = (tr1, inr data) ->
  write importable lzma_compress zstandard_compress w safe_write tr =
  (tr1 ++ [EvOpen (output_file w); EvWrite data]
       ++ (if safe_write then [EvFlush; EvFsync] else [EvLog Warning])
       ++ [EvClose; EvLog Info], inr tt).
Proof.
  intros Hc. unfold write, with_open, bind, log, emit.
  rewrite Hc. destruct safe_write; simpl; rewrite <- !app_assoc; reflexivity.
Qed.

(** C8: no compression returns the data, "xz" calls [lzma.compress] with
    [check = xz_crc], which defaults to CRC32, "zstd" calls
    [zstandard.compress] with the level; a [compress] that returns data
    always had one of these three schemes. *)
Theorem compress_schemes importable lzma_compress zstandard_compress
    (w : CPIOWriter) (data : bytes) (tr : list event) :
  (compression w = VBool false ->
     compress importable lzma_compress zstandard_compress w data tr = (tr ++ [EvLog Info], inr data))
  /\ (compression w = VStr "xz" -> importable "lzma"%string = true ->
     compress importable lzma_compress zstandard_compress w data tr
     = (tr ++ [EvLog Debug] ++ [EvLog Info], inr (lzma_compress (xz_crc w) data)))
  /\ (compression w = VStr "zstd" -> importable "zstandard"%string = true ->
     compress importable lzma_compress zstandard_compress w data tr
     = (tr ++ [EvLog Debug] ++ [EvLog Info], inr (zstandard_compress (compression_level w) data)))
  /\ (forall tr' out, compress importable lzma_compress zstandard_compress w data tr = (tr', inr out) ->
     compression w = VBool false \/ compression w = VStr "xz" \/ compression w = VStr "zstd")
  /\ (forall entries file c l, xz_crc (CPIOWriter_init entries file c l None) = CHECK_CRC32).
Proof.
  split; [|split; [|split; [|split]]].
  - intros H. unfold compress, bind, log, emit. rewrite H. reflexivity.
  - intros H Hi. unfold compress, run_compressor, bind, log, emit.
    rewrite H, Hi. simpl. rewrite <- app_assoc. reflexivity.
  - intros H Hi. unfold compress, run_compressor, bind, log, emit.
    rewrite H, Hi. simpl. rewrite <- app_assoc. reflexivity.
  - intros tr' out. unfold compress, run_compressor, bind, log, emit, ret, raise.
    destruct (select (compression w)) eqn:Hs.
    + destruct (select_xz_inv _ Hs) as [Hx|Ht]; [auto|].
      rewrite Ht. destruct (importable "lzma"%string); discriminate.
    + intros _. right. right. apply select_zstd_inv; exact Hs.
    + discriminate.
    + intros _. left. apply select_none_inv; exact Hs.
  - reflexivity.
Qed.

Lemma lower_true_init entries file s l c :
  lower s = "true"%string ->
  compression (CPIOWriter_init entries file (Some (VStr s)) l c) = VBool true.
Proof. intros H. unfold CPIOWriter_init. simpl. rewrite H. reflexivity. Qed.

(** C9 (defect): [True] and any string whose lower case is "true" select
    the xz branch, but [self.compression.upper()] then raises
    [AttributeError] on the boolean, so no xz data is produced. *)
Theorem compress_true_attribute_error importable lzma_compress zstandard_compress
    entries file arg l c (data : bytes) (tr : list event) :
  (arg = VBool true \/ exists s, arg = VStr s /\ lower s = "true"%string) ->
  importable "lzma"%string = true ->
  let w := CPIOWriter_init entries file (Some arg) l c in
  select (compression w) = SelXz
  /\ compress importable lzma_compress zstandard_compress w data tr
     = (tr ++ [EvLog Debug], inl AttributeError).
Proof.
  intros Harg Hi w.
  assert (Hc : compression w = VBool true).
  { subst w. destruct Harg as [->|[s [-> Hs]]]; [reflexivity|apply lower_true_init; exact Hs]. }
  split.
  - rewrite Hc. reflexivity.
  - unfold compress, run_compressor, bind, log, emit, raise. rewrite Hc, Hi. reflexivity.
Qed.

(** C10: a falsy [compression_level] (0 or None) is stored as 10, and the
    stored level is never 0. *)
Theorem init_level_never_zero entries file comp l c :
  (l = Some (VInt 0) \/ l = Some VNone ->
     compression_level (CPIOWriter_init entries file comp l c) = VInt 10)
  /\ compression_level (CPIOWriter_init entries file comp l c) <> VInt 0.
Proof.
  split.
  - intros [-> | ->]; reflexivity.
  - unfold CPIOWriter_init, py_or. simpl.
    destruct l as [v|]; [|discriminate].
    destruct (truthy v) eqn:Ht; [|discriminate].
    intros ->. discriminate.
Qed.

(** ** The codec: hex fields and records decode back *)

Lemma take_app_exact (a b : bytes) : take (length a) (a ++ b) = Some (a, b).
Proof.
  unfold take. rewrite length_app, (proj2 (Nat.leb_le _ _)) by lia.
  rewrite firstn_app, skipn_app, Nat.sub_diag, firstn_all, skipn_all. simpl.
  rewrite app_nil_r. reflexivity.
Qed.

Lemma take_app_n (n : nat) (a b : bytes) : length a = n -> take n (a ++ b) = Some (a, b).
Proof. intros <-. apply take_app_exact. Qed.

Lemma length_hexn n v : length (hexn n v) = n.
Proof.
  revert v; induction n as [|n IH]; intros v; [reflexivity|].
  simpl. rewrite length_app, IH. simpl. lia.
Qed.

Lemma hex_val_digit d : 0 <= d < 16 -> hex_val (hex_digit d) = Some d.
Proof.
  intros Hd.
  assert (d = 0 \/ d = 1 \/ d = 2 \/ d = 3 \/ d = 4 \/ d = 5 \/ d = 6 \/ d = 7 \/
          d = 8 \/ d = 9 \/ d = 10 \/ d = 11 \/ d = 12 \/ d = 13 \/ d = 14 \/ d = 15)
    as Hcases by lia.
  repeat destruct Hcases as [-> | Hcases]; try reflexivity.
  subst; reflexivity.
Qed.

Lemma parse_hexn_acc n : forall v a,
  fold_left hex_step (hexn n v) (Some a) = Some (a * 16 ^ Z.of_nat n + v mod 16 ^ Z.of_nat n).
Proof.
  induction n as [|n IH]; intros v a.
  - simpl. rewrite Z.mod_1_r. f_equal; lia.
  - change (hexn (S n) v) with (hexn n (v / 16) ++ [hex_digit (v mod 16)]).
    rewrite fold_left_app, IH. cbn [fold_left].
    unfold hex_step. rewrite hex_val_digit by (apply Z.mod_pos_bound; lia).
    f_equal.
    rewrite Nat2Z.inj_succ, Z.pow_succ_r by lia.
    assert (H16 : 0 < 16 ^ Z.of_nat n) by (apply Z.pow_pos_nonneg; lia).
    set (m := 16 ^ Z.of_nat n) in *.
    assert (Hv : v mod (16 * m) = v mod 16 + 16 * ((v / 16) mod m)).
    { symmetry. apply Z.mod_unique with (q := (v / 16) / m).
      - left. pose proof (Z.mod_pos_bound v 16 ltac:(lia)).
        pose proof (Z.mod_pos_bound (v / 16) m H16). nia.
      - pose proof (Z.div_mod v 16 ltac:(lia)).
        pose proof (Z.div_mod (v / 16) m ltac:(lia)). nia. }
    rewrite Hv. ring.
Qed.

Lemma parse_hex8 v : parse_hex (hex8 v) = Some (v mod 2 ^ 32).
Proof.
  unfold parse_hex, hex8. rewrite parse_hexn_acc. f_equal.
Qed.

Lemma length_flat_map_hex8 (vs : list Z) : length (flat_map hex8 vs) = (8 * length vs)%nat.
Proof.
  induction vs as [|v vs IH]; [reflexivity|].
  change (flat_map hex8 (v :: vs)) with (hex8 v ++ flat_map hex8 vs).
  rewrite length_app, IH. unfold hex8. rewrite length_hexn. cbn [length]. lia.
Qed.

Lemma parse_fields_hex8 (vs : list Z) (rest : bytes) :
  parse_fields (length vs) (flat_map hex8 vs ++ rest) = Some (map (fun v => v mod 2 ^ 32) vs, rest).
Proof.
  induction vs as [|v vs IH]; [reflexivity|].
  change (flat_map hex8 (v :: vs)) with (hex8 v ++ flat_map hex8 vs).
  rewrite <- app_assoc. cbn [length parse_fields].
  rewrite take_app_n by (unfold hex8; apply length_hexn).
  rewrite parse_hex8, IH. reflexivity.
Qed.

Lemma decode_entry (h : header) (c rest : bytes) :
  hdr_ok h c ->
  decode_record (encode_header h ++ c ++ zeros (pad4 (length c)) ++ rest)
  = Some (norm32 h, c, rest).
Proof.
  intros (Hns & Hnl & Hfs & Hcl).
  unfold decode_record, encode_header. rewrite <- !app_assoc.
  rewrite take_app_n by reflexivity.
  change (bytes_eqb newc_magic newc_magic) with true. cbv beta iota zeta.
  change 13%nat with (length (header_numbers h)).
  rewrite parse_fields_hex8. cbv beta iota zeta.
  cbn [map header_numbers]. cbv beta iota zeta.
  rewrite Hns, (Z.mod_small (Z.of_nat (length (h_name h)) + 1)) by lia.
  replace (Z.to_nat (Z.of_nat (length (h_name h)) + 1)) with (S (length (h_name h))) by lia.
  rewrite (app_assoc (h_name h) [Byte.x00]).
  rewrite take_app_n by (rewrite length_app; simpl; lia). cbv beta iota zeta.
  rewrite take_app_n by (unfold zeros; apply repeat_length). cbv beta iota zeta.
  rewrite Hfs, Z.mod_small by lia. rewrite Nat2Z.id.
  rewrite take_app_exact. cbv beta iota zeta.
  rewrite take_app_n by (unfold zeros; apply repeat_length). cbv beta iota zeta.
  replace (S (length (h_name h)) - 1)%nat with (length (h_name h)) by lia.
  rewrite firstn_app, Nat.sub_diag, firstn_all. cbn [firstn]. rewrite app_nil_r.
  unfold norm32. rewrite Hns, Hfs.
  rewrite (Z.mod_small (Z.of_nat (length c))), (Z.mod_small (Z.of_nat (length (h_name h)) + 1)) by lia.
  reflexivity.
Qed.

Lemma decode_trailer : decode_record (encode_header trailer) = Some (trailer, [], []).
Proof. reflexivity. Qed.

Lemma fields_of_norm32 (h : header) :
  fields_ok (fields_of h) -> fields_of (norm32 h) = fields_of h.
Proof.
  unfold fields_ok, fields_of, norm32; simpl.
  intros (H1 & H2 & H3 & H4 & H5 & H6 & H7 & H8).
  rewrite !Z.mod_small by lia. reflexivity.
Qed.

Lemma is_trailer_norm32 (h : header) (c : bytes) :
  hdr_ok h c -> is_trailer (norm32 h) = is_trailer h.
Proof.
  intros (Hns & Hnl & Hfs & Hcl). unfold is_trailer, norm32; simpl.
  rewrite Hfs, Z.mod_small by lia. reflexivity.
Qed.

Lemma length_encode_header (h : header) :
  length (encode_header h) = (110 + S (length (h_name h)) + pad4 (110 + S (length (h_name h))))%nat.
Proof.
  unfold encode_header. rewrite !length_app, length_flat_map_hex8.
  unfold zeros. rewrite repeat_length. simpl. lia.
Qed.

Lemma length_entries_bytes_ge (es : list (bytes * entry)) :
  (110 * length es <= length (entries_bytes es))%nat.
Proof.
  induction es as [|pe es IH]; [simpl; lia|].
  change (entries_bytes (pe :: es)) with (entry_bytes (snd pe) ++ entries_bytes es).
  unfold entry_bytes. rewrite !length_app, length_encode_header. simpl length. lia.
Qed.

Lemma ingest_loop_entries (es : list (bytes * entry)) : forall (st : store) (fuel : nat),
  Forall entry_ok es -> (length es < fuel)%nat ->
  ingest_loop fuel (entries_bytes es ++ encode_header trailer) st
  = Some (build_from st (map replay_op es)).
Proof.
  induction es as [|pe es IH]; intros st fuel Hok Hfuel.
  - destruct fuel as [|fuel]; [simpl in Hfuel; lia|].
    cbn [ingest_loop entries_bytes flat_map app]. rewrite decode_trailer. reflexivity.
  - destruct fuel as [|fuel]; [lia|].
    inversion Hok as [|? ? [Hh [Hf Ht]] Hok']; subst.
    change (entries_bytes (pe :: es)) with (entry_bytes (snd pe) ++ entries_bytes es).
    unfold entry_bytes. rewrite <- !app_assoc. cbn [ingest_loop].
    rewrite decode_entry by exact Hh. cbv beta iota.
    rewrite (is_trailer_norm32 _ _ Hh), Ht, fields_of_norm32 by exact Hf.
    rewrite IH by (auto; simpl in Hfuel; lia).
    reflexivity.
Qed.

Lemma ingest_entries (es : list (bytes * entry)) (st : store) :
  Forall entry_ok es ->
  ingest (entries_bytes es ++ encode_header trailer) st = Some (build_from st (map replay_op es)).
Proof.
  intros Hok. unfold ingest. apply ingest_loop_entries; [exact Hok|].
  pose proof (length_entries_bytes_ge es). rewrite length_app. lia.
Qed.

(** ** Stores built without deduplication *)

Lemma bytes_eqb_eq (a b : bytes) : bytes_eqb a b = true <-> a = b.
Proof.
  revert b; induction a as [|x a IH]; intros [|y b]; simpl; split; intros H;
    try discriminate; try reflexivity.
  - apply andb_prop in H as [Hxy Hab].
    apply Byte.byte_dec_bl in Hxy. apply IH in Hab. subst. reflexivity.
  - injection H as -> ->. rewrite Byte.byte_dec_lb, (proj2 (IH b)); reflexivity.
Qed.

Lemma key_eqb_eq (k1 k2 : bytes * Z) : key_eqb k1 k2 = true <-> k1 = k2.
Proof.
  destruct k1 as [a x], k2 as [b y]. unfold key_eqb; simpl.
  rewrite andb_true_iff, bytes_eqb_eq, Z.eqb_eq. split.
  - intros [-> ->]; reflexivity.
  - intros H; injection H as -> ->; auto.
Qed.

Lemma hash_lookup_none (k : bytes * Z) (l : list ((bytes * Z) * Z)) :
  ~ In k (map fst l) -> hash_lookup k l = None.
Proof.
  induction l as [|[k' i] l IH]; intros Hn; [reflexivity|].
  simpl in *. destruct (key_eqb k k') eqn:E.
  - apply key_eqb_eq in E. subst. tauto.
  - apply IH. tauto.
Qed.

Lemma append_fresh (st : store) (p : bytes) (f : fields) (c : bytes) :
  (dedup_eligible (ftype (f_mode f)) = true -> ~ In (c, ftype (f_mode f)) (map fst (st_hashes st))) ->
  append st p f c =
  mkStore (insert_replace p (canon p f c (st_next_ino st)) (st_entries st))
          (st_next_ino st + 1) (((c, ftype (f_mode f)), st_next_ino st) :: st_hashes st).
Proof.
  intros Hn. unfold append.
  destruct (dedup_eligible (ftype (f_mode f))) eqn:E.
  - rewrite hash_lookup_none by auto. reflexivity.
  - reflexivity.
Qed.

Lemma In_insert_replace (p : bytes) (e : entry) (es : list (bytes * entry)) x :
  In x (insert_replace p e es) -> x = (p, e) \/ In x es.
Proof.
  induction es as [|[q e'] es IH]; simpl.
  - intros [H|[]]; auto.
  - destruct (bytes_eqb p q); simpl; intros [H|H]; auto.
    destruct (IH H); auto.
Qed.

Lemma NoDup_paths_insert_replace (p : bytes) (e : entry) (es : list (bytes * entry)) :
  NoDup (map fst es) -> NoDup (map fst (insert_replace p e es)).
Proof.
  induction es as [|[q e'] es IH]; simpl; intros Hnd.
  - constructor; [simpl; tauto | constructor].
  - inversion Hnd as [|? ? Hq Hnd']; subst.
    destruct (bytes_eqb p q) eqn:E.
    + apply bytes_eqb_eq in E. subst. simpl. constructor; assumption.
    + simpl. constructor; [|apply IH; exact Hnd'].
      intros Hin. apply in_map_iff in Hin as [x [Hx Hin]].
      destruct (In_insert_replace _ _ _ _ Hin) as [->|Hin'].
      * simpl in Hx. subst. rewrite (proj2 (bytes_eqb_eq q q) eq_refl) in E. discriminate.
      * apply Hq. apply in_map_iff. eauto.
Qed.

Lemma NoDup_app_disjoint {A : Type} (l1 l2 : list A) (a : A) :
  NoDup (l1 ++ l2) -> In a l1 -> ~ In a l2.
Proof.
  induction l1 as [|x l1 IH]; simpl; [tauto|].
  intros Hnd [->|Hin] Hin2; inversion Hnd as [|? ? Hx Hnd']; subst.
  - apply Hx. apply in_or_app. right. exact Hin2.
  - exact (IH Hnd' Hin Hin2).
Qed.

Lemma NoDup_flat_map_insert_replace {K : Type} (g : bytes * entry -> list K)
    (p : bytes) (e : entry) (es : list (bytes * entry)) :
  NoDup (flat_map g es) -> NoDup (g (p, e)) ->
  (forall k, In k (g (p, e)) -> ~ In k (flat_map g es)) ->
  NoDup (flat_map g (insert_replace p e es)).
Proof.
  induction es as [|[q e'] es IH]; simpl; intros Hnd Hg Hdis.
  - rewrite app_nil_r. exact Hg.
  - destruct (bytes_eqb p q); simpl.
    + apply NoDup_app; [exact Hg | apply NoDup_app_remove_l in Hnd; exact Hnd|].
      intros k Hk Hk'. apply (Hdis k Hk). apply in_or_app. right. exact Hk'.
    + apply NoDup_app.
      * apply NoDup_app_remove_r in Hnd. exact Hnd.
      * apply IH; [apply NoDup_app_remove_l in Hnd; exact Hnd | exact Hg |].
        intros k Hk Hk'. apply (Hdis k Hk). apply in_or_app. right. exact Hk'.
      * intros k Hk Hk'. apply in_flat_map in Hk' as [x [Hx Hkx]].
        destruct (In_insert_replace _ _ _ _ Hx) as [->|Hx'].
        -- apply (Hdis k Hkx). apply in_or_app. left. exact Hk.
        -- apply (NoDup_app_disjoint _ _ k Hnd Hk). apply in_flat_map. eauto.
Qed.

Lemma strip_insert_replace (p : bytes) (e : entry) (es : list (bytes * entry)) :
  map strip_pe (insert_replace p e es) = insert_replace p (strip_entry e) (map strip_pe es).
Proof.
  induction es as [|[q e'] es IH]; [reflexivity|].
  simpl. destruct (bytes_eqb p q); simpl; [reflexivity|]. rewrite IH. reflexivity.
Qed.

Lemma map_as_flat_map {A B : Type} (g : A -> B) (l : list A) :
  map g l = flat_map (fun x => [g x]) l.
Proof. induction l as [|x l IH]; simpl; [reflexivity|]. rewrite IH. reflexivity. Qed.

Lemma In_flat_map_insert_replace {K : Type} (g : bytes * entry -> list K)
    (p : bytes) (e : entry) (es : list (bytes * entry)) k :
  In k (flat_map g (insert_replace p e es)) -> In k (g (p, e)) \/ In k (flat_map g es).
Proof.
  intros Hk. apply in_flat_map in Hk as [x [Hx Hkx]].
  destruct (In_insert_replace _ _ _ _ Hx) as [->|Hx']; [left; exact Hkx|].
  right. apply in_flat_map. eauto.
Qed.

Lemma fresh_inv_empty : fresh_inv empty_store.
Proof.
  unfold fresh_inv; simpl.
  repeat split; try constructor; intros; contradiction.
Qed.

Lemma fresh_inv_append (st : store) (p : bytes) (f : fields) (c : bytes) :
  fresh_inv st -> op_ok (p, f, c) ->
  (dedup_eligible (ftype (f_mode f)) = true -> ~ In (c, ftype (f_mode f)) (map fst (st_hashes st))) ->
  fresh_inv (append st p f c).
Proof.
  intros (H1 & H2 & H3 & H4 & H5 & H6) Hop Hn.
  rewrite append_fresh by exact Hn.
  unfold fresh_inv; cbn [st_entries st_next_ino st_hashes].
  set (e := canon p f c (st_next_ino st)).
  split; [|split; [|split; [|split; [|split]]]].
  - apply NoDup_paths_insert_replace. exact H1.
  - rewrite map_as_flat_map. apply NoDup_flat_map_insert_replace.
    + rewrite <- map_as_flat_map. exact H2.
    + constructor; [simpl; tauto | constructor].
    + intros k [Hk|[]]. rewrite <- map_as_flat_map. intros Hin.
      apply in_map_iff in Hin as [x [Hx Hin]].
      specialize (H3 x Hin). subst k. unfold ino_of_entry in *. simpl in *. lia.
  - intros pe Hin. destruct (In_insert_replace _ _ _ _ Hin) as [->|Hin'].
    + unfold ino_of_entry; simpl. lia.
    + specialize (H3 pe Hin'). lia.
  - unfold entry_elig_keys. apply NoDup_flat_map_insert_replace.
    + exact H4.
    + simpl. destruct (dedup_eligible _); repeat constructor; simpl; tauto.
    + simpl. destruct (dedup_eligible (ftype (f_mode f))) eqn:E; [|simpl; tauto].
      intros k [<-|[]] Hin. apply (Hn eq_refl). apply H5. exact Hin.
  - intros k Hk. apply In_flat_map_insert_replace in Hk as [Hk|Hk].
    + simpl in Hk. destruct (dedup_eligible (ftype (f_mode f))); [|contradiction].
      destruct Hk as [<-|[]]. left. reflexivity.
    + right. apply H5. exact Hk.
  - intros pe Hin. destruct (In_insert_replace _ _ _ _ Hin) as [->|Hin'].
    + exists f, c. split; [exact Hop | reflexivity].
    + apply H6. exact Hin'.
Qed.

Lemma elig_keys_eligible (ops : list (bytes * fields * bytes)) k :
  In k (elig_keys ops) -> dedup_eligible (snd k) = true.
Proof.
  unfold elig_keys. intros Hk. apply in_flat_map in Hk as [op [_ Hk]].
  destruct (dedup_eligible (snd (op_key op))) eqn:E; [|contradiction].
  destruct Hk as [<-|[]]. exact E.
Qed.

Lemma build_fresh (ops : list (bytes * fields * bytes)) : forall (st : store),
  fresh_inv st -> Forall op_ok ops -> NoDup (elig_keys ops) ->
  (forall k, In k (elig_keys ops) -> ~ In k (map fst (st_hashes st))) ->
  fresh_inv (build_from st ops)
  /\ map strip_pe (st_entries (build_from st ops)) = canon_fold (map strip_pe (st_entries st)) ops.
Proof.
  induction ops as [|[[p f] c] ops IH]; intros st Hinv Hok Hnd Hfresh.
  - split; [exact Hinv | reflexivity].
  - inversion Hok as [|? ? Hop Hok']; subst.
    change (build_from st ((p, f, c) :: ops)) with (build_from (append st p f c) ops).
    change (canon_fold (map strip_pe (st_entries st)) ((p, f, c) :: ops))
      with (canon_fold (insert_replace p (canon p f c 0) (map strip_pe (st_entries st))) ops).
    change (elig_keys ((p, f, c) :: ops))
      with ((if dedup_eligible (ftype (f_mode f)) then [(c, ftype (f_mode f))] else [])
            ++ elig_keys ops) in Hnd, Hfresh.
    assert (Hn : dedup_eligible (ftype (f_mode f)) = true ->
                 ~ In (c, ftype (f_mode f)) (map fst (st_hashes st))).
    { intros E. apply Hfresh. rewrite E. left. reflexivity. }
    assert (Happ : append st p f c =
       mkStore (insert_replace p (canon p f c (st_next_ino st)) (st_entries st))
               (st_next_ino st + 1) (((c, ftype (f_mode f)), st_next_ino st) :: st_hashes st))
      by (apply append_fresh; exact Hn).
    destruct (IH (append st p f c)) as [Hinv' Heq].
    + apply fresh_inv_append; assumption.
    + exact Hok'.
    + apply NoDup_app_remove_l in Hnd. exact Hnd.
    + intros k Hk. rewrite Happ. simpl. intros [Hkey|Hin].
      * assert (Ek := elig_keys_eligible _ _ Hk). rewrite <- Hkey in Ek. simpl in Ek.
        rewrite Ek in Hnd. apply (NoDup_app_disjoint _ _ k Hnd); [left; exact Hkey | exact Hk].
      * apply (Hfresh k); [apply in_or_app; right; exact Hk | exact Hin].
    + split; [exact Hinv'|]. rewrite Heq, Happ. simpl.
      rewrite strip_insert_replace. reflexivity.
Qed.

Lemma insert_replace_new (p : bytes) (e : entry) (es : list (bytes * entry)) :
  ~ In p (map fst es) -> insert_replace p e es = es ++ [(p, e)].
Proof.
  induction es as [|[q e'] es IH]; simpl; intros Hn; [reflexivity|].
  destruct (bytes_eqb p q) eqn:E.
  - apply bytes_eqb_eq in E. subst. tauto.
  - rewrite IH by tauto. reflexivity.
Qed.

Lemma canon_fold_fresh (ops : list (bytes * fields * bytes)) : forall acc,
  NoDup (map fst acc ++ map op_path ops) -> canon_fold acc ops = acc ++ map canon_op ops.
Proof.
  induction ops as [|[[p f] c] ops IH]; intros acc Hnd.
  - simpl. rewrite app_nil_r. reflexivity.
  - change (canon_fold acc ((p, f, c) :: ops)) with (canon_fold (insert_replace p (canon p f c 0) acc) ops).
    change (map op_path ((p, f, c) :: ops)) with (p :: map op_path ops) in Hnd.
    rewrite insert_replace_new.
    + rewrite IH.
      * rewrite <- app_assoc. reflexivity.
      * rewrite map_app, <- app_assoc. exact Hnd.
    + intros Hin. apply (NoDup_app_disjoint _ _ p Hnd Hin). left. reflexivity.
Qed.

Lemma fields_of_mk_header ino f n fs p : fields_of (mk_header ino f n fs p) = f.
Proof. destruct f; reflexivity. Qed.

Lemma replay_canon (pe : bytes * entry) (f : fields) (c : bytes) :
  snd pe = canon (fst pe) f c (ino_of_entry pe) ->
  replay_op pe = (fst pe, f, c) /\ canon_op (replay_op pe) = strip_pe pe.
Proof.
  destruct pe as [p e]. simpl. intros He.
  set (i := ino_of_entry (p, e)) in He. clearbody i. subst e.
  unfold replay_op, strip_pe. simpl.
  rewrite fields_of_mk_header. split; reflexivity.
Qed.

Lemma elig_keys_replay (es : list (bytes * entry)) :
  elig_keys (map replay_op es) = entry_elig_keys es.
Proof.
  induction es as [|pe es IH]; [reflexivity|].
  simpl. rewrite IH. reflexivity.
Qed.

Lemma fresh_entries_ok (st : store) :
  fresh_inv st -> Forall entry_ok (st_entries st) /\ Forall op_ok (map replay_op (st_entries st)).
Proof.
  intros (_ & _ & _ & _ & _ & H6). split.
  - apply Forall_forall. intros pe Hin.
    destruct (H6 pe Hin) as (f & c & Hop & He).
    destruct pe as [p e]. simpl in *.
    set (i := ino_of_entry (p, e)) in He. clearbody i. subst e.
    destruct Hop as (Hf & Hp & Hc & Ht).
    unfold entry_ok, hdr_ok; simpl. rewrite fields_of_mk_header.
    split; [repeat split; lia|]. split; [exact Hf|].
    unfold is_trailer; simpl.
    destruct (bytes_eqb p trailer_name) eqn:E; [|reflexivity].
    apply bytes_eqb_eq in E.
    destruct (Z.of_nat (length c) =? 0) eqn:E2; [|reflexivity].
    apply Z.eqb_eq in E2. destruct c; [|simpl in E2; lia].
    exfalso. apply Ht. split; auto.
  - apply Forall_forall. intros op Hin. apply in_map_iff in Hin as [pe [<- Hin]].
    destruct (H6 pe Hin) as (f & c & Hop & He).
    rewrite (proj1 (replay_canon pe f c He)). exact Hop.
Qed.

Lemma lookup_strip (p : bytes) (es : list (bytes * entry)) :
  lookup p (map strip_pe es) = option_map strip_entry (lookup p es).
Proof.
  induction es as [|[q e] es IH]; [reflexivity|].
  simpl. destruct (bytes_eqb p q); [reflexivity | exact IH].
Qed.

Lemma lookup_In (p : bytes) (es : list (bytes * entry)) (e : entry) :
  lookup p es = Some e -> In (p, e) es.
Proof.
  induction es as [|[q e'] es IH]; simpl; [discriminate|].
  destruct (bytes_eqb p q) eqn:E.
  - apply bytes_eqb_eq in E. intros H. injection H as ->. subst. left. reflexivity.
  - intros H. right. apply IH. exact H.
Qed.

Lemma NoDup_map_inj {A B : Type} (g : A -> B) (l : list A) x y :
  NoDup (map g l) -> In x l -> In y l -> g x = g y -> x = y.
Proof.
  induction l as [|a l IH]; simpl; [tauto|].
  intros Hnd Hx Hy Hg. inversion Hnd as [|? ? Ha Hnd']; subst.
  destruct Hx as [<-|Hx], Hy as [<-|Hy]; auto.
  - exfalso. apply Ha. rewrite Hg. apply in_map. exact Hy.
  - exfalso. apply Ha. rewrite <- Hg. apply in_map. exact Hx.
Qed.

Lemma lookup_ino_iff (es : list (bytes * entry)) (p q : bytes) (e1 e2 : entry) :
  NoDup (map ino_of_entry es) ->
  lookup p es = Some e1 -> lookup q es = Some e2 ->
  (h_ino (e_header e1) = h_ino (e_header e2) <-> p = q).
Proof.
  intros Hino H1 H2. split.
  - intros Heq.
    assert (Hpq : (p, e1) = (q, e2)).
    { apply (NoDup_map_inj ino_of_entry es); auto using lookup_In. }
    injection Hpq as -> ->. reflexivity.
  - intros ->. rewrite H1 in H2. injection H2 as ->. reflexivity.
Qed.

Lemma ino_at_iff (st : store) p q i j :
  NoDup (map ino_of_entry (st_entries st)) ->
  ino_at st p = Some i -> ino_at st q = Some j -> (i = j <-> p = q).
Proof.
  unfold ino_at. intros Hino Hp Hq.
  destruct (lookup p (st_entries st)) as [e1|] eqn:E1; [|discriminate].
  destruct (lookup q (st_entries st)) as [e2|] eqn:E2; [|discriminate].
  simpl in Hp, Hq. injection Hp as <-. injection Hq as <-.
  exact (lookup_ino_iff _ _ _ _ _ Hino E1 E2).
Qed.

Lemma strip_store_replay (st : store) :
  fresh_inv st ->
  fresh_inv (build (map replay_op (st_entries st)))
  /\ map strip_pe (st_entries (build (map replay_op (st_entries st)))) = map strip_pe (st_entries st).
Proof.
  intros Hinv. destruct (fresh_entries_ok st Hinv) as [_ Hops].
  pose proof Hinv as (H1 & _ & _ & H4 & _ & H6).
  destruct (build_fresh (map replay_op (st_entries st)) empty_store fresh_inv_empty Hops)
    as [Hinv' Heq].
  - rewrite elig_keys_replay. exact H4.
  - intros k _ []. 
  - split; [exact Hinv'|]. unfold build. rewrite Heq. simpl.
    assert (Hpath : map op_path (map replay_op (st_entries st)) = map fst (st_entries st)).
    { rewrite map_map. apply map_ext_in. intros pe Hin.
      destruct (H6 pe Hin) as (f & c & _ & He).
      unfold op_path. rewrite (proj1 (replay_canon pe f c He)). reflexivity. }
    rewrite canon_fold_fresh by (simpl; rewrite Hpath; exact H1).
    simpl. rewrite map_map. apply map_ext_in. intros pe Hin.
    destruct (H6 pe Hin) as (f & c & _ & He).
    exact (proj2 (replay_canon pe f c He)).
Qed.

(** ** Appending a path that is already present *)

Lemma map_fst_nlink_update (ino n : Z) (es : list (bytes * entry)) :
  map fst (map (fun pe => if ino_of_entry pe =? ino then (fst pe, set_nlink n (snd pe)) else pe) es)
  = map fst es.
Proof.
  rewrite map_map. apply map_ext. intros pe. destruct (ino_of_entry pe =? ino); reflexivity.
Qed.

Lemma map_fst_insert_replace_in (p : bytes) (e : entry) (es : list (bytes * entry)) :
  In p (map fst es) -> map fst (insert_replace p e es) = map fst es.
Proof.
  induction es as [|[q e'] es IH]; simpl; [tauto|].
  intros Hin. destruct (bytes_eqb p q) eqn:E.
  - apply bytes_eqb_eq in E. subst. reflexivity.
  - simpl. f_equal. apply IH. destruct Hin as [Hqp|Hin]; [|exact Hin].
    subst q. rewrite (proj2 (bytes_eqb_eq p p) eq_refl) in E. discriminate.
Qed.

Lemma In_insert_replace_path (p : bytes) (e : entry) (es : list (bytes * entry)) :
  In p (map fst (insert_replace p e es)).
Proof.
  induction es as [|[q e'] es IH]; simpl; [left; reflexivity|].
  destruct (bytes_eqb p q); simpl; [left; reflexivity | right; exact IH].
Qed.

(** Whichever branch [append] takes, it inserts at [p] into a list with the
    same paths as before. *)
Lemma append_paths_shape (st : store) (p : bytes) (f : fields) (c : bytes) :
  exists e es, st_entries (append st p f c) = insert_replace p e es /\ map fst es = paths st.
Proof.
  unfold append.
  destruct (if dedup_eligible (ftype (f_mode f)) then hash_lookup (c, ftype (f_mode f)) (st_hashes st) else None)
    as [ino|].
  - eexists _, _. split; [reflexivity|]. apply map_fst_nlink_update.
  - eexists _, _. split; reflexivity.
Qed.

Lemma append_paths_NoDup (st : store) (p : bytes) (f : fields) (c : bytes) :
  NoDup (paths st) -> NoDup (paths (append st p f c)) /\ In p (paths (append st p f c)).
Proof.
  intros Hnd. destruct (append_paths_shape st p f c) as (e & es & He & Hes).
  split; unfold paths; rewrite He.
  - apply NoDup_paths_insert_replace. rewrite Hes. exact Hnd.
  - apply In_insert_replace_path.
Qed.

Lemma append_paths_present (st : store) (p : bytes) (f : fields) (c : bytes) :
  In p (paths st) -> paths (append st p f c) = paths st.
Proof.
  intros Hin. destruct (append_paths_shape st p f c) as (e & es & He & Hes).
  unfold paths in *. rewrite He, map_fst_insert_replace_in; [exact Hes|]. rewrite Hes. exact Hin.
Qed.

(** C4: on a store whose paths are unique (as every store built by
    [append] is), appending the same path and content twice leaves the path
    once in [list()], at the place the first append gave it. *)
Theorem append_same_path_twice (st : store) (p : bytes) (f : fields) (c : bytes) :
  NoDup (paths st) ->
  count_occ (list_eq_dec Byte.byte_eq_dec) (paths (append (append st p f c) p f c)) p = 1%nat
  /\ paths (append (append st p f c) p f c) = paths (append st p f c).
Proof.
  intros Hnd.
  destruct (append_paths_NoDup st p f c Hnd) as [Hnd1 Hin1].
  assert (Heq : paths (append (append st p f c) p f c) = paths (append st p f c))
    by (apply append_paths_present; exact Hin1).
  split; [|exact Heq].
  rewrite Heq.
  pose proof (proj1 (NoDup_count_occ (list_eq_dec Byte.byte_eq_dec) _) Hnd1 p).
  pose proof (proj1 (count_occ_In (list_eq_dec Byte.byte_eq_dec) _ p) Hin1).
  lia.
Qed.

Lemma build_paths_NoDup (ops : list (bytes * fields * bytes)) : forall st,
  NoDup (paths st) -> NoDup (paths (build_from st ops)).
Proof.
  induction ops as [|[[p f] c] ops IH]; intros st Hnd; [exact Hnd|].
  change (build_from st ((p, f, c) :: ops)) with (build_from (append st p f c) ops).
  apply IH. apply append_paths_NoDup. exact Hnd.
Qed.

(** ** Layout of the written bytes *)

Lemma existsb_bytes_In (p : bytes) (l : list bytes) : existsb (bytes_eqb p) l = true <-> In p l.
Proof.
  rewrite existsb_exists. split.
  - intros [x [Hx E]]. apply bytes_eqb_eq in E. subst. exact Hx.
  - intros H. exists p. split; [exact H|]. apply bytes_eqb_eq. reflexivity.
Qed.

Lemma paths_append (st : store) (p : bytes) (f : fields) (c : bytes) :
  paths (append st p f c) = if existsb (bytes_eqb p) (paths st) then paths st else paths st ++ [p].
Proof.
  destruct (existsb (bytes_eqb p) (paths st)) eqn:E.
  - apply append_paths_present. apply existsb_bytes_In. exact E.
  - destruct (append_paths_shape st p f c) as (e & es & He & Hes).
    unfold paths in *. rewrite He, insert_replace_new.
    + rewrite map_app, Hes. reflexivity.
    + rewrite Hes. intros Hin. apply existsb_bytes_In in Hin. congruence.
Qed.

Lemma paths_build_from (ops : list (bytes * fields * bytes)) : forall st,
  paths (build_from st ops) = first_seen_from (paths st) (map op_path ops).
Proof.
  induction ops as [|[[p f] c] ops IH]; intros st; [reflexivity|].
  change (build_from st ((p, f, c) :: ops)) with (build_from (append st p f c) ops).
  rewrite IH, paths_append. reflexivity.
Qed.

Lemma first_seen_from_in (ps : list bytes) : forall seen q,
  In q (first_seen_from seen ps) -> In q seen \/ In q ps.
Proof.
  induction ps as [|p ps IH]; intros seen q Hin; [left; exact Hin|].
  change (first_seen_from seen (p :: ps))
    with (first_seen_from (if existsb (bytes_eqb p) seen then seen else seen ++ [p]) ps) in Hin.
  destruct (existsb (bytes_eqb p) seen);
    apply IH in Hin as [Hin|Hin]; simpl; auto.
  apply in_app_or in Hin as [Hin|[<-|[]]]; auto.
Qed.

Lemma first_seen_from_NoDup (ps : list bytes) : forall seen,
  NoDup (seen ++ ps) -> first_seen_from seen ps = seen ++ ps.
Proof.
  induction ps as [|p ps IH]; intros seen Hnd; [rewrite app_nil_r; reflexivity|].
  change (first_seen_from seen (p :: ps))
    with (first_seen_from (if existsb (bytes_eqb p) seen then seen else seen ++ [p]) ps).
  assert (Hp : existsb (bytes_eqb p) seen = false).
  { destruct (existsb (bytes_eqb p) seen) eqn:E; [|reflexivity].
    apply existsb_bytes_In in E. exfalso.
    apply (NoDup_app_disjoint _ _ p Hnd E). left. reflexivity. }
  rewrite Hp, IH; [rewrite <- app_assoc; reflexivity|].
  rewrite <- app_assoc. exact Hnd.
Qed.

Lemma layout_inv_append (st : store) (p : bytes) (f : fields) (c : bytes) :
  op_ok (p, f, c) -> layout_inv st -> layout_inv (append st p f c).
Proof.
  intros (Hf & Hp & Hc & _) Hinv pe Hin.
  assert (Hfo : forall ino n fs, fields_of (mk_header ino f n fs p) = f) by (destruct f; reflexivity).
  unfold append in Hin.
  destruct (if dedup_eligible (ftype (f_mode f)) then hash_lookup (c, ftype (f_mode f)) (st_hashes st) else None)
    as [ino|]; cbn [st_entries] in Hin; apply In_insert_replace in Hin as [->|Hin].
  - cbn [snd fst e_header e_content]. rewrite Hfo.
    split; [reflexivity|]. split; [|exact Hf].
    unfold hdr_ok, mk_header. cbn [h_name h_namesize h_filesize length]. lia.
  - apply in_map_iff in Hin as [x [<- Hx]].
    destruct (Hinv x Hx) as (H1 & H2 & H3).
    destruct (ino_of_entry x =? ino); [|auto].
    destruct x as [q [[] cx hx]]. unfold hdr_ok, fields_of in *. cbn in *. auto.
  - cbn [snd fst e_header e_content]. rewrite Hfo.
    split; [reflexivity|]. split; [|exact Hf].
    unfold hdr_ok, mk_header. cbn [h_name h_namesize h_filesize]. lia.
  - exact (Hinv pe Hin).
Qed.

Lemma layout_inv_build (ops : list (bytes * fields * bytes)) : forall st,
  Forall op_ok ops -> layout_inv st -> layout_inv (build_from st ops).
Proof.
  induction ops as [|[[p f] c] ops IH]; intros st Hok Hinv; [exact Hinv|].
  apply Forall_cons_iff in Hok as [Hop Hok].
  change (build_from st ((p, f, c) :: ops)) with (build_from (append st p f c) ops).
  apply IH; [exact Hok|]. apply layout_inv_append; assumption.
Qed.

Lemma records_entries (es : list (bytes * entry)) : forall fuel,
  Forall (fun pe => hdr_ok (e_header (snd pe)) (e_content (snd pe))) es -> (length es < fuel)%nat ->
  records fuel (entries_bytes es ++ encode_header trailer)
  = Some (map (fun pe => (norm32 (e_header (snd pe)), e_content (snd pe))) es ++ [(trailer, [])]).
Proof.
  induction es as [|pe es IH]; intros fuel Hok Hfuel.
  - destruct fuel as [|fuel]; [simpl in Hfuel; lia|].
    cbn [records entries_bytes flat_map app]. rewrite decode_trailer. reflexivity.
  - destruct fuel as [|fuel]; [lia|].
    apply Forall_cons_iff in Hok as [Hh Hok].
    change (entries_bytes (pe :: es)) with (entry_bytes (snd pe) ++ entries_bytes es).
    unfold entry_bytes. rewrite <- !app_assoc. cbn [records].
    rewrite decode_entry by exact Hh. cbv beta iota.
    rewrite IH by (auto; simpl in Hfuel; lia).
    destruct (entries_bytes es ++ encode_header trailer) eqn:E.
    + exfalso. apply (f_equal (@length Byte.byte)) in E.
      rewrite length_app in E. change (length (encode_header trailer)) with 124%nat in E. cbn [length] in E. lia.
    + reflexivity.
Qed.

Lemma build_entries_named (ops : list (bytes * fields * bytes)) (pe : bytes * entry) :
  Forall op_ok ops -> In pe (st_entries (build ops)) ->
  h_name (e_header (snd pe)) = fst pe /\ In (fst pe) (map op_path ops).
Proof.
  intros Hok Hin.
  destruct (layout_inv_build ops empty_store Hok (fun _ H => match H with end) pe Hin) as [Hn _].
  split; [exact Hn|].
  assert (Hp : In (fst pe) (paths (build ops))) by (apply in_map; exact Hin).
  unfold build in Hp. rewrite paths_build_from in Hp.
  apply first_seen_from_in in Hp as [[]|Hp]. exact Hp.
Qed.

(** C5: for a store built by appends with 32-bit fields, [bytes(writer)]
    is every entry's encoded header followed by its padded content, in
    store order; store order is the order in which each path was first
    appended; and reading the bytes record by record gives the entries'
    records in that order, then the trailer as the last record and only
    there: every other record carries the name of an appended path. *)
Theorem writer_bytes_layout (ops : list (bytes * fields * bytes)) (w : CPIOWriter) :
  cpio_entries w = build ops -> Forall op_ok ops ->
  CPIOWriter_bytes w =
    flat_map (fun pe => encode_header (e_header (snd pe)) ++ e_content (snd pe)
                        ++ zeros (pad4 (length (e_content (snd pe)))))
             (st_entries (cpio_entries w))
    ++ encode_header trailer
  /\ paths (cpio_entries w) = first_seen (map op_path ops)
  /\ records (S (length (CPIOWriter_bytes w))) (CPIOWriter_bytes w)
     = Some (map (fun pe => (norm32 (e_header (snd pe)), e_content (snd pe)))
                 (st_entries (cpio_entries w))
             ++ [(trailer, [])])
  /\ (forall pe, In pe (st_entries (cpio_entries w)) ->
       h_name (e_header (snd pe)) = fst pe /\ In (fst pe) (map op_path ops)).
Proof.
  intros Hw Hok.
  pose proof (layout_inv_build ops empty_store Hok (fun _ H => match H with end)) as Hinv.
  fold (build ops) in Hinv. rewrite <- Hw in Hinv.
  split; [reflexivity|]. split; [|split].
  - rewrite Hw. unfold build. rewrite paths_build_from. reflexivity.
  - unfold CPIOWriter_bytes. apply records_entries.
    + apply Forall_forall. intros pe Hin. apply (Hinv pe Hin).
    + pose proof (length_entries_bytes_ge (st_entries (cpio_entries w))).
      rewrite length_app. lia.
  - intros pe Hin. rewrite Hw in Hin. exact (build_entries_named ops pe Hok Hin).
Qed.

(** C6 (amended): the trailer that [__bytes__] appends after the entries
    is named "TRAILER!!!", has [nlink = 1], [namesize = 11] and every other
    numeric field 0, and it is never stored in an entry store: a store built
    by appends of other paths holds no entry of that name, and reading the
    written bytes into a fresh store stops at the trailer without storing it,
    giving back exactly the store's paths. *)
Theorem trailer_never_stored (ops : list (bytes * fields * bytes)) (w : CPIOWriter) :
  cpio_entries w = build ops -> Forall op_ok ops ->
  Forall (fun op => op_path op <> trailer_name) ops ->
  trailer = mkHeader 0 0 0 0 1 0 0 0 0 0 0 11 0 (list_byte_of_string "TRAILER!!!")
  /\ CPIOWriter_bytes w = entries_bytes (st_entries (cpio_entries w)) ++ encode_header trailer
  /\ ~ In trailer_name (paths (cpio_entries w))
  /\ exists st', ingest (CPIOWriter_bytes w) empty_store = Some st'
       /\ paths st' = paths (cpio_entries w)
       /\ ~ In trailer_name (paths st').
Proof.
  intros Hw Hok Hnt.
  assert (Hnot : forall pe, In pe (st_entries (cpio_entries w)) -> fst pe <> trailer_name).
  { intros pe Hin. rewrite Hw in Hin.
    destruct (build_entries_named ops pe Hok Hin) as [_ Hp].
    apply in_map_iff in Hp as [op [Hop Hin']]. rewrite <- Hop.
    exact (proj1 (Forall_forall _ _) Hnt op Hin'). }
  assert (Hnin : ~ In trailer_name (paths (cpio_entries w))).
  { intros Hin. apply in_map_iff in Hin as [pe [Hpe Hin]]. exact (Hnot pe Hin Hpe). }
  pose proof (layout_inv_build ops empty_store Hok (fun _ H => match H with end)) as Hinv.
  fold (build ops) in Hinv. rewrite <- Hw in Hinv.
  split; [reflexivity|]. split; [reflexivity|]. split; [exact Hnin|].
  set (es := st_entries (cpio_entries w)) in *.
  assert (Hent : Forall entry_ok es).
  { apply Forall_forall. intros pe Hin. destruct (Hinv pe Hin) as (Hn & Hh & Hf).
    split; [exact Hh|]. split; [exact Hf|].
    unfold is_trailer. rewrite Hn.
    destruct (bytes_eqb (fst pe) trailer_name) eqn:E; [|reflexivity].
    apply bytes_eqb_eq in E. exfalso. exact (Hnot pe Hin E). }
  exists (build_from empty_store (map replay_op es)).
  assert (Hpaths : paths (build_from empty_store (map replay_op es)) = paths (cpio_entries w)).
  { rewrite paths_build_from. cbn [paths st_entries empty_store].
    replace (map op_path (map replay_op es)) with (map fst es).
    - apply first_seen_from_NoDup. change (NoDup (paths (cpio_entries w))).
      rewrite Hw. apply build_paths_NoDup. constructor.
    - rewrite map_map. apply map_ext_in. intros pe Hin.
      unfold op_path, replay_op. simpl. symmetry. apply (Hinv pe Hin). }
  split; [|split; [exact Hpaths|rewrite Hpaths; exact Hnin]].
  unfold CPIOWriter_bytes. apply ingest_entries. exact Hent.
Qed.

(** ** Size of an archive of identical contents *)

Lemma length_entry_bytes (e : entry) :
  length (entry_bytes e) =
  (110 + S (length (h_name (e_header e))) + pad4 (110 + S (length (h_name (e_header e))))
   + (length (e_content e) + pad4 (length (e_content e))))%nat.
Proof.
  unfold entry_bytes. rewrite !length_app, length_encode_header.
  unfold zeros. rewrite repeat_length. lia.
Qed.

Lemma length_entries_bytes (es : list (bytes * entry)) :
  length (entries_bytes es) = list_sum (map (fun pe => length (entry_bytes (snd pe))) es).
Proof.
  induction es as [|pe es IH]; [reflexivity|].
  change (entries_bytes (pe :: es)) with (entry_bytes (snd pe) ++ entries_bytes es).
  rewrite length_app, IH. reflexivity.
Qed.

Lemma length_trailer : length (encode_header trailer) = 124%nat.
Proof. reflexivity. Qed.

Lemma key_eqb_refl (k : bytes * Z) : key_eqb k k = true.
Proof. apply key_eqb_eq. reflexivity. Qed.

Lemma dedup_shape_step (t : Z) (c : bytes) (st : store) (done : list bytes) (p : bytes) (f : fields) :
  ftype (f_mode f) = t -> dedup_eligible t = true -> done <> [] -> ~ In p done ->
  dedup_shape t c st done -> dedup_shape t c (append st p f c) (done ++ [p]).
Proof.
  intros Ht Hel Hne Hp (H1 & H2 & H3 & i & H4).
  unfold append. rewrite Ht, Hel, H4.
  set (upd := fun pe : bytes * entry =>
          if ino_of_entry pe =? i then (fst pe, set_nlink (Z.of_nat (count_ino i (st_entries st)) + 1) (snd pe)) else pe).
  assert (Hfst : map fst (map upd (st_entries st)) = done)
    by (unfold upd; rewrite map_fst_nlink_update; exact H1).
  unfold dedup_shape; cbn [st_entries st_hashes].
  rewrite insert_replace_new by (rewrite Hfst; exact Hp).
  split; [|split; [|split]].
  - rewrite map_app, Hfst. reflexivity.
  - rewrite map_app, map_map.
    replace (map (fun x => e_content (snd (upd x))) (st_entries st))
      with (map (fun pe => e_content (snd pe)) (st_entries st))
      by (apply map_ext; intros pe; unfold upd; destruct (ino_of_entry pe =? i); reflexivity).
    rewrite H2. destruct done as [|d r]; [contradiction|]. simpl.
    rewrite map_app. reflexivity.
  - intros pe Hin. apply in_app_or in Hin as [Hin|[<-|[]]].
    + apply in_map_iff in Hin as [x [<- Hx]].
      unfold upd. destruct (ino_of_entry x =? i); simpl; apply H3; exact Hx.
    + reflexivity.
  - exists i. exact H4.
Qed.

Lemma dedup_shape_build (t : Z) (c : bytes) (qs : list (bytes * fields)) : forall st done,
  Forall (fun q => ftype (f_mode (snd q)) = t) qs ->
  dedup_eligible t = true -> done <> [] -> NoDup (done ++ map fst qs) ->
  dedup_shape t c st done ->
  dedup_shape t c (build_from st (map (fun q => (fst q, snd q, c)) qs)) (done ++ map fst qs).
Proof.
  induction qs as [|[q f] qs IH]; intros st done Hty Hel Hne Hnd Hsh.
  - rewrite app_nil_r. exact Hsh.
  - apply Forall_cons_iff in Hty as [Hq Hty'].
    change (build_from st (map (fun q => (fst q, snd q, c)) ((q, f) :: qs)))
      with (build_from (append st q f c) (map (fun q => (fst q, snd q, c)) qs)).
    change (map fst ((q, f) :: qs)) with (q :: map fst qs) in *.
    replace (done ++ q :: map fst qs) with ((done ++ [q]) ++ map fst qs)
      by (rewrite <- app_assoc; reflexivity).
    apply IH; auto.
    + destruct done; [contradiction | discriminate].
    + rewrite <- app_assoc. exact Hnd.
    + apply dedup_shape_step; auto.
      intros Hin. apply (NoDup_app_disjoint _ _ q Hnd Hin). left. reflexivity.
Qed.

Lemma dedup_shape_all (t : Z) (c : bytes) (pf : bytes * fields) (pfs : list (bytes * fields)) :
  Forall (fun q => ftype (f_mode (snd q)) = t) (pf :: pfs) ->
  dedup_eligible t = true -> NoDup (map fst (pf :: pfs)) ->
  dedup_shape t c (build (map (fun q => (fst q, snd q, c)) (pf :: pfs))) (map fst (pf :: pfs)).
Proof.
  destruct pf as [p f]. intros Hty Hel Hnd.
  apply Forall_cons_iff in Hty as [Hf Hty']. simpl in Hf.
  change (build (map (fun q => (fst q, snd q, c)) ((p, f) :: pfs)))
    with (build_from (append empty_store p f c) (map (fun q => (fst q, snd q, c)) pfs)).
  change (map fst ((p, f) :: pfs)) with ([p] ++ map fst pfs) in *.
  apply dedup_shape_build; auto; [discriminate|].
  unfold append, dedup_shape. simpl. rewrite Hf, Hel.
  split; [reflexivity|]. split; [reflexivity|]. split.
  - intros pe [<-|[]]. reflexivity.
  - exists 1. change (hash_lookup (c, t) [((c, t), 1)] = Some 1).
    cbn [hash_lookup]. rewrite key_eqb_refl. reflexivity.
Qed.

Lemma sum_header_sizes (ps : list bytes) :
  list_sum (map (fun p => 110 + S (length p) + pad4 (110 + S (length p))) ps)%nat
  = (110 * length ps + total_name_length ps + namepad ps)%nat.
Proof.
  unfold total_name_length, namepad.
  induction ps as [|p ps IH]; [reflexivity|]. simpl in *. lia.
Qed.

Lemma pad4_lt (n : nat) : (pad4 n < 4)%nat.
Proof. unfold pad4. apply Nat.mod_upper_bound. lia. Qed.

(** C3 (counterexample): two symlinks with the same 400-byte target are not
    deduplicated, so the archive holds the target twice and exceeds the bound,
    even with the whole 124-byte trailer record added to it. *)
Lemma symlinks_not_deduplicated :
  let ps := [path_a; path_b] in
  let c := repeat Byte.x41 400 in
  let w := writer_of (build (map (fun p => (p, lnk_fields, c)) ps)) in
  (110 * length ps + total_name_length ps + 110 + length c + namepad ps + 124
   < length (CPIOWriter_bytes w))%nat.
Proof. apply Nat.ltb_lt. vm_compute. reflexivity. Qed.

(** C3 (amended): [N] appends with distinct paths, one content and one
    file type other than directory and symlink (the other fields may
    differ) leave the content in the first entry only. For [N >= 1] the
    written archive is exactly N * 110 + total name length + name padding
    + content size + content padding + 124 (the trailer record), so it is
    at most N * (110 + average name length) + 110 + content size + name
    padding + 14 + content padding: the formula's extra 110 bytes stand for
    the trailer's header, and 14 bytes (the trailer's name field) and at
    most 3 bytes of content padding come on top. *)
Theorem dedup_archive_size (pfs : list (bytes * fields)) (t : Z) (c : bytes) (w : CPIOWriter) :
  NoDup (map fst pfs) -> dedup_eligible t = true ->
  Forall (fun q => ftype (f_mode (snd q)) = t) pfs ->
  cpio_entries w = build (map (fun q => (fst q, snd q, c)) pfs) ->
  map (fun pe => e_content (snd pe)) (st_entries (cpio_entries w))
    = match map fst pfs with [] => [] | _ :: r => c :: map (fun _ => []) r end
  /\ (pfs <> [] ->
      length (CPIOWriter_bytes w)
      = 110 * length pfs + total_name_length (map fst pfs) + namepad (map fst pfs)
        + length c + pad4 (length c) + 124)%nat
  /\ (length (CPIOWriter_bytes w)
      <= 110 * length pfs + total_name_length (map fst pfs) + 110 + length c
         + namepad (map fst pfs) + 14 + pad4 (length c))%nat.
Proof.
  intros Hnd Hel Hty Hw. rewrite Hw.
  destruct pfs as [|pf pfs].
  - split; [reflexivity|]. split; [intros []; reflexivity|].
    unfold CPIOWriter_bytes. rewrite Hw. simpl. lia.
  - destruct (dedup_shape_all t c pf pfs Hty Hel Hnd) as (H1 & H2 & H3 & _).
    assert (Hlen : length (CPIOWriter_bytes w)
      = (110 * length (pf :: pfs) + total_name_length (map fst (pf :: pfs))
         + namepad (map fst (pf :: pfs)) + length c + pad4 (length c) + 124)%nat).
    { unfold CPIOWriter_bytes. rewrite Hw, length_app, length_trailer, length_entries_bytes.
      set (es := st_entries (build (map (fun q => (fst q, snd q, c)) (pf :: pfs)))) in *.
      assert (Hsplit : forall l : list (bytes * entry),
        (forall pe, In pe l -> h_name (e_header (snd pe)) = fst pe) ->
        list_sum (map (fun pe => length (entry_bytes (snd pe))) l)
        = (list_sum (map (fun q => 110 + S (length q) + pad4 (110 + S (length q))) (map fst l))
           + list_sum (map (fun x => length x + pad4 (length x)) (map (fun pe => e_content (snd pe)) l)))%nat).
      { induction l as [|pe l IH]; intros Hn; [reflexivity|].
        cbn [map].
        repeat change (list_sum (?a :: ?r)) with (a + list_sum r)%nat.
        rewrite length_entry_bytes, (Hn pe (or_introl eq_refl)), IH by (intros; apply Hn; right; assumption).
        lia. }
      rewrite (Hsplit es H3), H1, H2, sum_header_sizes.
      assert (Hz : forall r : list bytes,
        list_sum (map (fun x : list Byte.byte => (length x + pad4 (length x))%nat) (map (fun _ : bytes => []) r)) = 0%nat).
      { clear. induction r as [|q r IH]; [reflexivity|]. simpl. rewrite IH. reflexivity. }
      cbn [map]. change (list_sum (?a :: ?r)) with (a + list_sum r)%nat.
      rewrite Hz. cbn [length]. rewrite length_map. lia. }
    split; [exact H2|]. split; [intros _; exact Hlen|].
    rewrite Hlen. lia.
Qed.

(** ** Further properties of the writer *)

Lemma ascii_lower_idem (a : ascii) : ascii_lower (ascii_lower a) = ascii_lower a.
Proof. destruct a as [[] [] [] [] [] [] [] []]; reflexivity. Qed.

Lemma lower_idem (s : string) : lower (lower s) = lower s.
Proof. induction s as [|a s IH]; [reflexivity|]. simpl. rewrite ascii_lower_idem, IH. reflexivity. Qed.

Lemma compress_only_logs importable lzma_compress zstandard_compress w data tr :
  exists ls, fst (compress importable lzma_compress zstandard_compress w data tr) = tr ++ map EvLog ls.
Proof.
  unfold compress, run_compressor, bind, log, emit, ret, raise, py_upper.
  destruct (select (compression w)).
  - destruct (importable "lzma"%string); [|exists []; simpl; rewrite app_nil_r; reflexivity].
    destruct (compression w); try (exists [Debug]; reflexivity).
    exists [Debug; Info]. simpl. rewrite <- app_assoc. reflexivity.
  - destruct (importable "zstandard"%string); [|exists []; simpl; rewrite app_nil_r; reflexivity].
    destruct (compression w); try (exists [Debug]; reflexivity).
    exists [Debug; Info]. simpl. rewrite <- app_assoc. reflexivity.
  - exists []. simpl. rewrite app_nil_r. reflexivity.
  - exists [Info]. reflexivity.
Qed.

(** When [compress] raises, [write] raises the same exception and has
    only logged: it raises before reaching [open], so the output file is
    never opened, written or truncated. *)
Theorem write_fails_without_opening importable lzma_compress zstandard_compress
    (w : CPIOWriter) (safe_write : bool) (tr : list event) (e : exn) :
  snd (compress importable lzma_compress zstandard_compress w (CPIOWriter_bytes w) (tr ++ [EvLog Debug]))
    = inl e ->
  snd (write importable lzma_compress zstandard_compress w safe_write tr) = inl e
  /\ exists ls, fst (write importable lzma_compress zstandard_compress w safe_write tr)
                = tr ++ map EvLog ls.
Proof.
  intros H.
  destruct (compress_only_logs importable lzma_compress zstandard_compress w (CPIOWriter_bytes w)
              (tr ++ [EvLog Debug])) as [ls Hls].
  cbv [write bind log emit] in *.
  destruct (compress importable lzma_compress zstandard_compress w (CPIOWriter_bytes w)
              (tr ++ [EvLog Debug])) as [tr1 [x|d]] eqn:Ec; simpl in H; [|discriminate H].
  injection H as ->. simpl. split; [reflexivity|]. exists (Debug :: ls).
  simpl in Hls. rewrite Hls, <- app_assoc. reflexivity.
Qed.


(** [compression=None], [0] or [False] writes the data as it is; a
    nonzero int and the empty string, though not schemes, reach the
    unsupported branch: [0 or False] is [False], but [1 is True] is false
    and [""] is kept as a string. *)
Theorem compress_nonscheme_values importable lzma_compress zstandard_compress
    entries file l c (data : bytes) (tr : list event) :
  (forall v, v = VNone \/ v = VInt 0 \/ v = VBool false ->
     compress importable lzma_compress zstandard_compress
       (CPIOWriter_init entries file (Some v) l c) data tr = (tr ++ [EvLog Info], inr data))
  /\ (forall n, n <> 0 ->
     compress importable lzma_compress zstandard_compress
       (CPIOWriter_init entries file (Some (VInt n)) l c) data tr = (tr, inl UnavailableCompression))
  /\ compress importable lzma_compress zstandard_compress
       (CPIOWriter_init entries file (Some (VStr EmptyString)) l c) data tr
     = (tr, inl UnavailableCompression).
Proof.
  split; [|split].
  - intros v [->|[->| ->]]; reflexivity.
  - intros n Hn. unfold compress, CPIOWriter_init, py_or, truthy. simpl.
    destruct (Z.eqb_spec n 0) as [E|E]; [contradiction|]. reflexivity.
  - reflexivity.
Qed.

(** The constructor sees a compression string only through its lower
    case, so ["XZ"] and ["Zstd"] act as ["xz"] and ["zstd"]; a string whose
    lower case is ["xz"] compresses with [lzma] when it can be imported. *)
Theorem init_compression_case_insensitive importable lzma_compress zstandard_compress
    entries file (s : string) l c (data : bytes) (tr : list event) :
  CPIOWriter_init entries file (Some (VStr s)) l c
  = CPIOWriter_init entries file (Some (VStr (lower s))) l c
  /\ (lower s = "xz"%string -> importable "lzma"%string = true ->
      compress importable lzma_compress zstandard_compress
        (CPIOWriter_init entries file (Some (VStr s)) l c) data tr
      = (tr ++ [EvLog Debug] ++ [EvLog Info],
         inr (lzma_compress (match c with Some v => v | None => CHECK_CRC32 end) data))).
Proof.
  split.
  - unfold CPIOWriter_init. simpl. rewrite lower_idem. reflexivity.
  - intros Hl Hi. unfold compress, CPIOWriter_init. simpl. rewrite Hl. simpl.
    unfold run_compressor, bind, log, emit, ret. simpl. rewrite Hi. simpl.
    rewrite <- app_assoc. reflexivity.
Qed.

(** [xz_crc] is read only by the xz scheme and [compression_level] only by
    zstd: two writers with the same scheme that agree on what their scheme
    reads compress alike. *)
Theorem compress_reads_only_its_parameter importable lzma_compress zstandard_compress
    (w1 w2 : CPIOWriter) :
  compression w1 = compression w2 ->
  (select (compression w1) = SelXz -> xz_crc w1 = xz_crc w2) ->
  (select (compression w1) = SelZstd -> compression_level w1 = compression_level w2) ->
  forall data tr,
    compress importable lzma_compress zstandard_compress w1 data tr
    = compress importable lzma_compress zstandard_compress w2 data tr.
Proof.
  intros Hc Hx Hz data tr. unfold compress, run_compressor.
  rewrite <- Hc. destruct (select (compression w1)).
  - rewrite (Hx eq_refl). reflexivity.
  - rewrite (Hz eq_refl). reflexivity.
  - reflexivity.
  - reflexivity.
Qed.

(** ** The command line *)

Lemma calls_app (a b : list mevent) : calls (a ++ b) = calls a ++ calls b.
Proof. induction a as [|[c|] a IH]; simpl; rewrite ?IH; reflexivity. Qed.

Lemma StronglySorted_snoc (l : list nat) (r : nat) :
  StronglySorted lt l -> Forall (fun x => x < r)%nat l -> StronglySorted lt (l ++ [r]).
Proof.
  induction l as [|x l IH]; intros Hs Hf; simpl.
  - repeat constructor.
  - inversion Hs as [|? ? Hs' Hx]; subst. inversion Hf as [|? ? Hxr Hf']; subst.
    constructor; [apply IH; assumption|].
    apply Forall_app. split; [assumption|]. repeat constructor. assumption.
Qed.

Lemma rank_inv_mono (i j : nat) (tr : list mevent) :
  (i <= j)%nat -> rank_inv i tr -> rank_inv j tr.
Proof.
  intros Hij [Hs Hf]. split; [assumption|].
  eapply Forall_impl; [|exact Hf]. intros r Hr. simpl in Hr. lia.
Qed.

Lemma rank_inv_nil : rank_inv 0 [].
Proof. split; constructor. Qed.

Lemma rank_pres_mono {A} (i j j' : nat) (m : MainM A) :
  (j <= j')%nat -> rank_pres i j m -> rank_pres i j' m.
Proof. intros Hj Hm tr H. apply (rank_inv_mono j); auto. Qed.

Lemma rank_pres_ret {A} (i : nat) (a : A) : rank_pres i i (mret a).
Proof. intros tr H. exact H. Qed.

Lemma rank_pres_raise {A} (i : nat) (x : main_exn) : rank_pres i i (@mraise A x).
Proof. intros tr H. exact H. Qed.

Lemma rank_pres_invoke method_ok (c : call) :
  rank_pres (rank c) (S (rank c)) (invoke method_ok c).
Proof.
  intros tr [Hs Hf].
  assert (H : rank_inv (S (rank c)) (tr ++ [MCall c])).
  { unfold rank_inv. rewrite calls_app, map_app. simpl. split.
    - apply StronglySorted_snoc; assumption.
    - apply Forall_app. split; [|repeat constructor].
      eapply Forall_impl; [|exact Hf]. intros r Hr. simpl in Hr. lia. }
  unfold invoke. destruct (method_ok tr c); exact H.
Qed.

Lemma rank_pres_print (i : nat) : rank_pres i i mprint.
Proof.
  intros tr [Hs Hf]. unfold mprint, rank_inv. simpl. rewrite calls_app, app_nil_r. split; assumption.
Qed.

Lemma rank_pres_bind {A B} (i j l : nat) (m : MainM A) (k : A -> MainM B) :
  (j <= l)%nat -> rank_pres i j m -> (forall a, rank_pres j l (k a)) -> rank_pres i l (mbind m k).
Proof.
  intros Hjl Hm Hk tr H. specialize (Hm tr H). unfold mbind.
  destruct (m tr) as [tr' [x|a]]; simpl in *.
  - apply (rank_inv_mono j); assumption.
  - apply Hk. exact Hm.
Qed.

Lemma grows_invoke method_ok (c : call) : grows (invoke method_ok c).
Proof. intros tr. exists [MCall c]. unfold invoke. destruct (method_ok tr c); reflexivity. Qed.

Lemma grows_ret {A} (a : A) : grows (mret a).
Proof. intros tr. exists []. rewrite app_nil_r. reflexivity. Qed.

Lemma grows_raise {A} (x : main_exn) : grows (@mraise A x).
Proof. intros tr. exists []. rewrite app_nil_r. reflexivity. Qed.

Lemma grows_print : grows mprint.
Proof. intros tr. exists [MStdout]. reflexivity. Qed.

Lemma grows_bind {A B} (m : MainM A) (k : A -> MainM B) :
  grows m -> (forall a, grows (k a)) -> grows (mbind m k).
Proof.
  intros Hm Hk tr. destruct (Hm tr) as [e1 E1]. unfold mbind.
  destruct (m tr) as [tr' [x|a]]; simpl in *.
  - exists e1. exact E1.
  - destruct (Hk a tr') as [e2 E2]. exists (e1 ++ e2). rewrite E2, E1, app_assoc. reflexivity.
Qed.

Lemma mbind_cases {A B} (m : MainM A) (k : A -> MainM B) (tr : list mevent) :
  (exists t x, m tr = (t, inl x) /\ mbind m k tr = (t, inl x))
  \/ (exists t a, m tr = (t, inr a) /\ mbind m k tr = k a t).
Proof.
  unfold mbind. destruct (m tr) as [t [x|a]]; [left|right]; do 2 eexists; split; reflexivity.
Qed.

Section MainProofs.

Variable path_of : string -> string.
Variable method_ok : list mevent -> call -> bool.

Lemma stage_rank_input a : rank_pres 1 2 (main_input path_of method_ok a).
Proof.
  unfold main_input. destruct (str_truthy (a_input a)).
  - apply (rank_pres_invoke method_ok (CReadCpioFile _)).
  - apply (rank_pres_mono 1 1); [lia|apply rank_pres_ret].
Qed.

Lemma stage_rank_rm a : rank_pres 2 3 (main_rm method_ok a).
Proof.
  unfold main_rm. destruct (str_truthy (a_rm a)).
  - apply (rank_pres_invoke method_ok (CRemoveCpio _)).
  - apply (rank_pres_mono 2 2); [lia|apply rank_pres_ret].
Qed.

Lemma stage_rank_symlink a : rank_pres 3 4 (main_symlink method_ok a).
Proof.
  unfold main_symlink. destruct (str_truthy (a_symlink a)); [destruct (negb (str_truthy (a_name a)))|].
  - apply (rank_pres_mono 3 3); [lia|apply rank_pres_raise].
  - apply (rank_pres_invoke method_ok (CAddSymlink _ _)).
  - apply (rank_pres_mono 3 3); [lia|apply rank_pres_ret].
Qed.

Lemma stage_rank_chardev a : rank_pres 4 5 (main_chardev method_ok a).
Proof.
  unfold main_chardev. destruct (str_truthy (a_chardev a));
    [destruct (negb (int_truthy (a_major a)) || negb (int_truthy (a_minor a)))|].
  - apply (rank_pres_mono 4 4); [lia|apply rank_pres_raise].
  - apply (rank_pres_invoke method_ok (CAddChardev _ _ _)).
  - apply (rank_pres_mono 4 4); [lia|apply rank_pres_ret].
Qed.

Lemma stage_rank_append a : rank_pres 5 6 (main_append path_of method_ok a).
Proof.
  unfold main_append. destruct (str_truthy (a_append a)); [destruct (a_recursive a)|].
  - apply (rank_pres_invoke method_ok (CAppendRecursive _ _ _ _)).
  - apply (rank_pres_invoke method_ok (CAppendCpio _ _ _ _)).
  - apply (rank_pres_mono 5 5); [lia|apply rank_pres_ret].
Qed.

Lemma stage_rank_output a : rank_pres 6 7 (main_output path_of method_ok a).
Proof.
  unfold main_output. destruct (str_truthy (a_output a)).
  - apply (rank_pres_invoke method_ok (CWriteCpioFile _)).
  - apply (rank_pres_mono 6 6); [lia|apply rank_pres_ret].
Qed.

Lemma stage_rank_list a : rank_pres 7 8 (main_list method_ok a).
Proof.
  unfold main_list. destruct (a_list a).
  - apply (rank_pres_bind 7 8 8); [lia| apply (rank_pres_invoke method_ok CListFiles)|].
    intros _. apply rank_pres_print.
  - apply (rank_pres_mono 7 7); [lia|apply rank_pres_ret].
Qed.

Lemma stage_rank_print a : rank_pres 8 9 (main_print method_ok a).
Proof.
  unfold main_print. destruct (a_print a).
  - apply (rank_pres_bind 8 9 9); [lia| apply (rank_pres_invoke method_ok CStr)|].
    intros _. apply rank_pres_print.
  - apply (rank_pres_mono 8 8); [lia|apply rank_pres_ret].
Qed.

End MainProofs.

Lemma mbind_raise {A B} (m : MainM A) (k : A -> MainM B) tr t x :
  m tr = (t, inl x) -> mbind m k tr = (t, inl x).
Proof. intros E. unfold mbind. rewrite E. reflexivity. Qed.

Lemma mbind_ret {A B} (m : MainM A) (k : A -> MainM B) tr t a :
  m tr = (t, inr a) -> mbind m k tr = k a t.
Proof. intros E. unfold mbind. rewrite E. reflexivity. Qed.

Lemma rank_inv_not_in (k : nat) (tr : list mevent) (c : call) :
  rank_inv k tr -> In (MCall c) tr -> (rank c < k)%nat.
Proof.
  intros [_ Hf] Hin. rewrite Forall_forall in Hf. apply Hf, in_map.
  clear Hf. induction tr as [|[c'|] tr IH]; simpl in *; [contradiction| |].
  - destruct Hin as [H|H]; [injection H as ->; left; reflexivity|right; auto].
  - destruct Hin as [H|H]; [discriminate|auto].
Qed.

Lemma grows_run {A} (m : MainM A) tr t r : grows m -> m tr = (t, r) -> exists ext, t = tr ++ ext.
Proof. intros G E. destruct (G tr) as [ext H]. rewrite E in H. exists ext. exact H. Qed.

Section MainStages.

Variable path_of : string -> string.
Variable method_ok : list mevent -> call -> bool.

Lemma raise_ok_invoke c : raise_ok method_ok (invoke method_ok c).
Proof.
  intros tr t x E. right. exists tr, c. unfold invoke in E.
  destruct (method_ok tr c); [discriminate|reflexivity].
Qed.

Lemma raise_ok_ret {A} (v : A) : raise_ok method_ok (mret v).
Proof. intros tr t x E. discriminate. Qed.

Lemma raise_ok_value_error {A} : raise_ok method_ok (@mraise A ValueError).
Proof. intros tr t x E. injection E as _ <-. left. reflexivity. Qed.

Ltac split_ifs :=
  repeat match goal with
         | |- context [if ?b then _ else _] => destruct b
         end.

Ltac stage_raise := split_ifs; first [apply raise_ok_invoke | apply raise_ok_ret | apply raise_ok_value_error].
Ltac stage_grows := split_ifs; first [apply grows_invoke | apply grows_ret | apply grows_raise].

Lemma raise_ok_input a : raise_ok method_ok (main_input path_of method_ok a).
Proof. unfold main_input. stage_raise. Qed.

Lemma raise_ok_rm a : raise_ok method_ok (main_rm method_ok a).
Proof. unfold main_rm. stage_raise. Qed.

Lemma raise_ok_symlink a : raise_ok method_ok (main_symlink method_ok a).
Proof. unfold main_symlink. stage_raise. Qed.

Lemma grows_input a : grows (main_input path_of method_ok a).
Proof. unfold main_input. stage_grows. Qed.

Lemma grows_rm a : grows (main_rm method_ok a).
Proof. unfold main_rm. stage_grows. Qed.

Lemma grows_symlink a : grows (main_symlink method_ok a).
Proof. unfold main_symlink. stage_grows. Qed.

Lemma grows_chardev a : grows (main_chardev method_ok a).
Proof. unfold main_chardev. stage_grows. Qed.

Lemma grows_append a : grows (main_append path_of method_ok a).
Proof. unfold main_append. stage_grows. Qed.

Lemma grows_tail a :
  grows (main_output path_of method_ok a ;;; main_list method_ok a ;;; main_print method_ok a).
Proof.
  apply grows_bind; [unfold main_output; stage_grows|intros _].
  apply grows_bind; [|intros _]; [unfold main_list|unfold main_print];
    (destruct (_ : bool); [apply grows_bind; [apply grows_invoke|intros _; apply grows_print]
                          |apply grows_ret]).
Qed.

(** A requested block that returns has made its one call, and that call
    returned. *)
Lemma stage_done (r : nat) (m : MainM unit) a tr t :
  requested a r = true -> m tr = (t, inr tt) ->
  (m = main_input path_of method_ok a /\ r = 1%nat \/ m = main_rm method_ok a /\ r = 2%nat
   \/ m = main_symlink method_ok a /\ r = 3%nat \/ m = main_chardev method_ok a /\ r = 4%nat
   \/ m = main_append path_of method_ok a /\ r = 5%nat) ->
  exists c, rank c = r /\ t = tr ++ [MCall c] /\ method_ok tr c = true.
Proof.
  intros Hreq E Hm.
  destruct Hm as [[-> ->]|[[-> ->]|[[-> ->]|[[-> ->]|[-> ->]]]]]; simpl in Hreq;
    [unfold main_input in E|unfold main_rm in E|unfold main_symlink in E
    |unfold main_chardev in E|unfold main_append in E];
    rewrite Hreq in E;
    repeat match type of E with
           | context [if ?b then _ else _] => destruct b
           end;
    try discriminate E;
    unfold invoke in E;
    match type of E with
    | context [method_ok ?tr0 ?c0] =>
        exists c0; destruct (method_ok tr0 c0) eqn:Ok; [|discriminate E];
        injection E as <-; split; [reflexivity|split; [reflexivity|reflexivity]]
    end.
Qed.

End MainStages.

(** [main] calls its [PyCPIO] methods in a fixed order, each at most once:
    construction, [read_cpio_file], [remove_cpio], [add_symlink],
    [add_chardev], [append_recursive] or [append_cpio], [write_cpio_file],
    [list_files], [__str__]. So the archive is written at most once, after
    every change, and what is listed or printed is what was written. *)
Theorem main_calls_in_order path_of method_ok (a : Args) :
  StronglySorted lt (map rank (calls (fst (main path_of method_ok a [])))).
Proof.
  enough (H : rank_pres 0 9 (main path_of method_ok a)) by exact (proj1 (H [] rank_inv_nil)).
  unfold main.
  apply (rank_pres_bind 0 1 9); [lia|apply (rank_pres_invoke method_ok CInit)|intros _].
  apply (rank_pres_bind 1 2 9); [lia|apply stage_rank_input|intros _].
  apply (rank_pres_bind 2 3 9); [lia|apply stage_rank_rm|intros _].
  apply (rank_pres_bind 3 4 9); [lia|apply stage_rank_symlink|intros _].
  apply (rank_pres_bind 4 5 9); [lia|apply stage_rank_chardev|intros _].
  apply (rank_pres_bind 5 6 9); [lia|apply stage_rank_append|intros _].
  apply (rank_pres_bind 6 7 9); [lia|apply stage_rank_output|intros _].
  apply (rank_pres_bind 7 8 9); [lia|apply stage_rank_list|intros _].
  apply stage_rank_print.
Qed.

Ltac main_stop E R k RO :=
  rewrite (mbind_raise _ _ _ _ _ E); eexists _, _; split; [reflexivity|]; split;
  [ refine (proj2 (rank_inv_mono _ k _ _ R)); lia
  | intros Hok; destruct (RO _ _ _ E) as [->|(tr' & c' & Hc)];
    [reflexivity | rewrite Hok in Hc; discriminate Hc] ].

(** [-s] without a (non-empty) [-n] makes [main] raise before
    [add_symlink] and every later call: nothing is added, appended or
    written. The error is [ValueError] unless an earlier [PyCPIO] call
    raised first. *)
Theorem main_symlink_needs_name path_of method_ok (a : Args) :
  str_truthy (a_symlink a) = true -> str_truthy (a_name a) = false ->
  exists t e, main path_of method_ok a [] = (t, inl e)
    /\ Forall (fun r => r < 3)%nat (map rank (calls t))
    /\ ((forall tr c, method_ok tr c = true) -> e = ValueError).
Proof.
  intros Hs Hn. unfold main.
  pose proof (rank_pres_invoke method_ok CInit [] rank_inv_nil) as R1.
  destruct (invoke method_ok CInit []) as [t1 [x|[]]] eqn:E1; simpl in R1;
    [main_stop E1 R1 3%nat (raise_ok_invoke method_ok CInit)|rewrite (mbind_ret _ _ _ _ _ E1)].
  pose proof (stage_rank_input path_of method_ok a t1 R1) as R2.
  destruct (main_input path_of method_ok a t1) as [t2 [x|[]]] eqn:E2; simpl in R2;
    [main_stop E2 R2 3%nat (raise_ok_input path_of method_ok a)|rewrite (mbind_ret _ _ _ _ _ E2)].
  pose proof (stage_rank_rm method_ok a t2 R2) as R3.
  destruct (main_rm method_ok a t2) as [t3 [x|[]]] eqn:E3; simpl in R3;
    [main_stop E3 R3 3%nat (raise_ok_rm method_ok a)|rewrite (mbind_ret _ _ _ _ _ E3)].
  assert (E4 : main_symlink method_ok a t3 = (t3, inl ValueError)).
  { unfold main_symlink. rewrite Hs, Hn. reflexivity. }
  rewrite (mbind_raise _ _ _ _ _ E4). exists t3, ValueError.
  split; [reflexivity|]. split; [exact (proj2 R3)|reflexivity].
Qed.

(** [-c] with [--major] or [--minor] missing or 0 makes [main] raise
    before [add_chardev] and every later call, so a device with major or
    minor number 0 cannot be added from the command line. The error is
    [ValueError] unless an earlier [PyCPIO] call raised first. *)
Theorem main_chardev_needs_nonzero_numbers path_of method_ok (a : Args) :
  str_truthy (a_chardev a) = true ->
  int_truthy (a_major a) = false \/ int_truthy (a_minor a) = false ->
  exists t e, main path_of method_ok a [] = (t, inl e)
    /\ Forall (fun r => r < 4)%nat (map rank (calls t))
    /\ ((forall tr c, method_ok tr c = true) -> e = ValueError).
Proof.
  intros Hch Hmm. unfold main.
  pose proof (rank_pres_invoke method_ok CInit [] rank_inv_nil) as R1.
  destruct (invoke method_ok CInit []) as [t1 [x|[]]] eqn:E1; simpl in R1;
    [main_stop E1 R1 4%nat (raise_ok_invoke method_ok CInit)|rewrite (mbind_ret _ _ _ _ _ E1)].
  pose proof (stage_rank_input path_of method_ok a t1 R1) as R2.
  destruct (main_input path_of method_ok a t1) as [t2 [x|[]]] eqn:E2; simpl in R2;
    [main_stop E2 R2 4%nat (raise_ok_input path_of method_ok a)|rewrite (mbind_ret _ _ _ _ _ E2)].
  pose proof (stage_rank_rm method_ok a t2 R2) as R3.
  destruct (main_rm method_ok a t2) as [t3 [x|[]]] eqn:E3; simpl in R3;
    [main_stop E3 R3 4%nat (raise_ok_rm method_ok a)|rewrite (mbind_ret _ _ _ _ _ E3)].
  pose proof (stage_rank_symlink method_ok a t3 R3) as R4.
  destruct (main_symlink method_ok a t3) as [t4 [x|[]]] eqn:E4; simpl in R4;
    [main_stop E4 R4 4%nat (raise_ok_symlink method_ok a)|rewrite (mbind_ret _ _ _ _ _ E4)].
  assert (E5 : main_chardev method_ok a t4 = (t4, inl ValueError)).
  { unfold main_chardev. rewrite Hch.
    destruct Hmm as [H|H]; rewrite H; [reflexivity|rewrite orb_true_r; reflexivity]. }
  rewrite (mbind_raise _ _ _ _ _ E5). exists t4, ValueError.
  split; [reflexivity|]. split; [exact (proj2 R4)|reflexivity].
Qed.

Lemma prefix_trans (a b c : list mevent) :
  (exists e, b = a ++ e) -> (exists e, c = b ++ e) -> exists e, c = a ++ e.
Proof. intros [e1 ->] [e2 ->]. exists (e1 ++ e2). rewrite app_assoc. reflexivity. Qed.

Ltac main_no_write E R Hin :=
  rewrite (mbind_raise _ _ _ _ _ E) in Hin; simpl in Hin;
  apply (rank_inv_not_in _ _ _ R) in Hin; simpl in Hin; lia.

Ltac write_after R Hin He :=
  rewrite He in Hin; apply in_app_or in Hin as [Hin|Hin];
  [apply (rank_inv_not_in _ _ _ R) in Hin; simpl in Hin; lia | exact Hin].

(** When [main] calls [write_cpio_file], every block asked for ([-i],
    [--rm], [-s], [-c], [-a]) has made its call before it and that call
    returned: the call sits in the trace ahead of the write call, so the
    archive written holds every requested change. *)
Theorem main_writes_after_requested path_of method_ok (a : Args) (p : string) (r : nat) :
  In (MCall (CWriteCpioFile p)) (fst (main path_of method_ok a [])) ->
  requested a r = true ->
  exists c t1 t2, rank c = r
    /\ fst (main path_of method_ok a []) = t1 ++ [MCall c] ++ t2
    /\ method_ok t1 c = true
    /\ In (MCall (CWriteCpioFile p)) t2.
Proof.
  intros Hin Hreq. unfold main in *.
  pose proof (rank_pres_invoke method_ok CInit [] rank_inv_nil) as R1.
  destruct (invoke method_ok CInit []) as [t1 [x|[]]] eqn:E1; simpl in R1;
    [main_no_write E1 R1 Hin|rewrite (mbind_ret _ _ _ _ _ E1) in *].
  pose proof (stage_rank_input path_of method_ok a t1 R1) as R2.
  destruct (main_input path_of method_ok a t1) as [t2 [x|[]]] eqn:E2; simpl in R2;
    [main_no_write E2 R2 Hin|rewrite (mbind_ret _ _ _ _ _ E2) in *].
  pose proof (stage_rank_rm method_ok a t2 R2) as R3.
  destruct (main_rm method_ok a t2) as [t3 [x|[]]] eqn:E3; simpl in R3;
    [main_no_write E3 R3 Hin|rewrite (mbind_ret _ _ _ _ _ E3) in *].
  pose proof (stage_rank_symlink method_ok a t3 R3) as R4.
  destruct (main_symlink method_ok a t3) as [t4 [x|[]]] eqn:E4; simpl in R4;
    [main_no_write E4 R4 Hin|rewrite (mbind_ret _ _ _ _ _ E4) in *].
  pose proof (stage_rank_chardev method_ok a t4 R4) as R5.
  destruct (main_chardev method_ok a t4) as [t5 [x|[]]] eqn:E5; simpl in R5;
    [main_no_write E5 R5 Hin|rewrite (mbind_ret _ _ _ _ _ E5) in *].
  pose proof (stage_rank_append path_of method_ok a t5 R5) as R6.
  destruct (main_append path_of method_ok a t5) as [t6 [x|[]]] eqn:E6; simpl in R6;
    [main_no_write E6 R6 Hin|rewrite (mbind_ret _ _ _ _ _ E6) in *].
  pose proof (grows_tail path_of method_ok a t6) as G6.
  pose proof (grows_run _ _ _ _ (grows_symlink method_ok a) E4) as G3.
  pose proof (grows_run _ _ _ _ (grows_chardev method_ok a) E5) as G4.
  pose proof (grows_run _ _ _ _ (grows_append path_of method_ok a) E6) as G5.
  pose proof (grows_run _ _ _ _ (grows_rm method_ok a) E3) as G2.
  destruct r as [|[|[|[|[|[|r]]]]]]; try discriminate Hreq.
  - destruct (stage_done path_of method_ok 1 _ a t1 t2 Hreq E2 ltac:(tauto)) as (c & Hr & -> & Hok).
    destruct (prefix_trans _ _ _ G2 (prefix_trans _ _ _ G3 (prefix_trans _ _ _ G4
                (prefix_trans _ _ _ G5 G6)))) as [e He].
    exists c, t1, e. split; [exact Hr|]. split; [rewrite He, <- app_assoc; reflexivity|].
    split; [exact Hok|]. write_after R2 Hin He.
  - destruct (stage_done path_of method_ok 2 _ a t2 t3 Hreq E3 ltac:(tauto)) as (c & Hr & -> & Hok).
    destruct (prefix_trans _ _ _ G3 (prefix_trans _ _ _ G4 (prefix_trans _ _ _ G5 G6))) as [e He].
    exists c, t2, e. split; [exact Hr|]. split; [rewrite He, <- app_assoc; reflexivity|].
    split; [exact Hok|]. write_after R3 Hin He.
  - destruct (stage_done path_of method_ok 3 _ a t3 t4 Hreq E4 ltac:(tauto)) as (c & Hr & -> & Hok).
    destruct (prefix_trans _ _ _ G4 (prefix_trans _ _ _ G5 G6)) as [e He].
    exists c, t3, e. split; [exact Hr|]. split; [rewrite He, <- app_assoc; reflexivity|].
    split; [exact Hok|]. write_after R4 Hin He.
  - destruct (stage_done path_of method_ok 4 _ a t4 t5 Hreq E5 ltac:(tauto)) as (c & Hr & -> & Hok).
    destruct (prefix_trans _ _ _ G5 G6) as [e He].
    exists c, t4, e. split; [exact Hr|]. split; [rewrite He, <- app_assoc; reflexivity|].
    split; [exact Hok|]. write_after R5 Hin He.
  - destruct (stage_done path_of method_ok 5 _ a t5 t6 Hreq E6 ltac:(tauto)) as (c & Hr & -> & Hok).
    destruct G6 as [e He].
    exists c, t5, e. split; [exact Hr|]. split; [rewrite He, <- app_assoc; reflexivity|].
    split; [exact Hok|]. write_after R6 Hin He.
Qed.

(** ** Instances of the theorems at concrete inputs *)

(** C2 at a writer created with [compression="gzip"]. *)
Lemma write_unsupported_before_open_witness :
  let w := CPIOWriter_init empty_store "archive.cpio" (Some (VStr "gzip")) None None in
  (compression w <> VBool false /\ compression w <> VBool true
   /\ compression w <> VStr "xz" /\ compression w <> VStr "zstd")
  /\ write (fun _ => true) (fun _ d => d) (fun _ d => d) w true []
     = ([] ++ [EvLog Debug], inl UnavailableCompression).
Proof.
  intros w.
  assert (Hc : compression w = VStr "gzip") by reflexivity.
  split.
  - rewrite Hc. repeat split; discriminate.
  - apply write_unsupported_before_open; rewrite Hc; discriminate.
Defined.

(** C7 at an uncompressed writer of the empty store, with and without
    [safe_write]. *)
Lemma write_durability_witness :
  let w := writer_of empty_store in
  compress (fun _ => true) (fun _ d => d) (fun _ d => d) w (CPIOWriter_bytes w) ([] ++ [EvLog Debug])
    = ([EvLog Debug; EvLog Info], inr (CPIOWriter_bytes w))
  /\ write (fun _ => true) (fun _ d => d) (fun _ d => d) w false []
     = ([EvLog Debug; EvLog Info] ++ [EvOpen (output_file w); EvWrite (CPIOWriter_bytes w)]
          ++ [EvLog Warning] ++ [EvClose; EvLog Info], inr tt).
Proof.
  intros w. split.
  - reflexivity.
  - apply (write_durability (fun _ => true) (fun _ d => d) (fun _ d => d) w false [])
      with (tr1 := [EvLog Debug; EvLog Info]).
    reflexivity.
Defined.

(** C8 at a writer created with [compression="xz"]. *)
Lemma compress_schemes_witness :
  let w := CPIOWriter_init empty_store "archive.cpio" (Some (VStr "xz")) None None in
  compression w = VStr "xz" /\ (fun _ : string => true) "lzma"%string = true
  /\ compress (fun _ => true) (fun chk d => hexn 8 chk ++ d) (fun _ d => d) w content_test []
     = ([] ++ [EvLog Debug] ++ [EvLog Info], inr (hexn 8 CHECK_CRC32 ++ content_test)).
Proof.
  intros w. split; [reflexivity|]. split; [reflexivity|].
  apply (proj1 (proj2 (compress_schemes (fun _ => true) (fun chk d => hexn 8 chk ++ d)
                                         (fun _ d => d) w content_test []))); reflexivity.
Defined.

(** C9 at [compression=True]. *)
Lemma compress_true_attribute_error_witness :
  (VBool true = VBool true \/ exists s, VBool true = VStr s /\ lower s = "true"%string)
  /\ (fun _ : string => true) "lzma"%string = true
  /\ (let w := CPIOWriter_init empty_store "archive.cpio" (Some (VBool true)) None None in
      select (compression w) = SelXz
      /\ compress (fun _ => true) (fun _ d => d) (fun _ d => d) w content_test []
         = ([] ++ [EvLog Debug], inl AttributeError)).
Proof.
  split; [left; reflexivity|]. split; [reflexivity|].
  apply compress_true_attribute_error; [left; reflexivity | reflexivity].
Defined.

(** C10 at [compression_level=0]. *)
Lemma init_level_never_zero_witness :
  (Some (VInt 0) = Some (VInt 0) \/ Some (VInt 0) = Some VNone)
  /\ compression_level (CPIOWriter_init empty_store "archive.cpio" None (Some (VInt 0)) None)
     = VInt 10.
Proof.
  split; [left; reflexivity|].
  apply (proj1 (init_level_never_zero empty_store "archive.cpio" None (Some (VInt 0)) None)).
  left; reflexivity.
Defined.

(** C4 at the empty store. *)
Lemma append_same_path_twice_witness :
  NoDup (paths empty_store)
  /\ count_occ (list_eq_dec Byte.byte_eq_dec)
       (paths (append (append empty_store path_a reg_fields content_test) path_a reg_fields content_test))
       path_a = 1%nat
  /\ paths (append (append empty_store path_a reg_fields content_test) path_a reg_fields content_test)
     = paths (append empty_store path_a reg_fields content_test).
Proof.
  split; [constructor|].
  apply append_same_path_twice. constructor.
Defined.

Ltac ops_ok :=
  repeat (apply Forall_cons;
    [unfold op_ok, fields_ok, reg_fields, exe_fields, S_IFREG, path_a, path_b, content_test;
     cbn; repeat split; try lia; intros [H _]; vm_compute in H; discriminate H|]);
  apply Forall_nil.

(** C5 at a store where "b" shares the content of "a" and "a" is appended
    again with other metadata. *)
Lemma writer_bytes_layout_witness :
  let ops := [(path_a, reg_fields, content_test); (path_b, reg_fields, content_test);
              (path_a, exe_fields, content_test)] in
  let w := writer_of (build ops) in
  (cpio_entries w = build ops /\ Forall op_ok ops)
  /\ CPIOWriter_bytes w =
    flat_map (fun pe => encode_header (e_header (snd pe)) ++ e_content (snd pe)
                        ++ zeros (pad4 (length (e_content (snd pe)))))
             (st_entries (cpio_entries w))
    ++ encode_header trailer
  /\ paths (cpio_entries w) = first_seen (map op_path ops)
  /\ records (S (length (CPIOWriter_bytes w))) (CPIOWriter_bytes w)
     = Some (map (fun pe => (norm32 (e_header (snd pe)), e_content (snd pe)))
                 (st_entries (cpio_entries w))
             ++ [(trailer, [])])
  /\ (forall pe, In pe (st_entries (cpio_entries w)) ->
       h_name (e_header (snd pe)) = fst pe /\ In (fst pe) (map op_path ops)).
Proof.
  intros ops w.
  assert (Hw : cpio_entries w = build ops) by reflexivity.
  assert (Hok : Forall op_ok ops) by ops_ok.
  split; [auto|].
  apply (writer_bytes_layout ops w Hw Hok).
Defined.

(** C6 (amended) at the same store. *)
Lemma trailer_never_stored_witness :
  let ops := [(path_a, reg_fields, content_test); (path_b, reg_fields, content_test);
              (path_a, exe_fields, content_test)] in
  let w := writer_of (build ops) in
  (cpio_entries w = build ops /\ Forall op_ok ops
   /\ Forall (fun op => op_path op <> trailer_name) ops)
  /\ trailer = mkHeader 0 0 0 0 1 0 0 0 0 0 0 11 0 (list_byte_of_string "TRAILER!!!")
  /\ CPIOWriter_bytes w = entries_bytes (st_entries (cpio_entries w)) ++ encode_header trailer
  /\ ~ In trailer_name (paths (cpio_entries w))
  /\ exists st', ingest (CPIOWriter_bytes w) empty_store = Some st'
       /\ paths st' = paths (cpio_entries w)
       /\ ~ In trailer_name (paths st').
Proof.
  intros ops w.
  assert (Hw : cpio_entries w = build ops) by reflexivity.
  assert (Hok : Forall op_ok ops) by ops_ok.
  assert (Hnt : Forall (fun op => op_path op <> trailer_name) ops).
  { repeat constructor; intros H; vm_compute in H; discriminate H. }
  split; [auto|].
  apply (trailer_never_stored ops w Hw Hok Hnt).
Defined.

(** C3 (amended) at a regular file "a" and an executable "b", both with content "test". *)
Lemma dedup_archive_size_witness :
  let pfs := [(path_a, reg_fields); (path_b, exe_fields)] in
  let w := writer_of (build (map (fun q => (fst q, snd q, content_test)) pfs)) in
  (NoDup (map fst pfs) /\ dedup_eligible S_IFREG = true
   /\ Forall (fun q => ftype (f_mode (snd q)) = S_IFREG) pfs
   /\ cpio_entries w = build (map (fun q => (fst q, snd q, content_test)) pfs))
  /\ map (fun pe => e_content (snd pe)) (st_entries (cpio_entries w))
     = match map fst pfs with [] => [] | _ :: r => content_test :: map (fun _ => []) r end
  /\ (pfs <> [] ->
      length (CPIOWriter_bytes w)
      = 110 * length pfs + total_name_length (map fst pfs) + namepad (map fst pfs)
        + length content_test + pad4 (length content_test) + 124)%nat
  /\ (length (CPIOWriter_bytes w)
      <= 110 * length pfs + total_name_length (map fst pfs) + 110 + length content_test
         + namepad (map fst pfs) + 14 + pad4 (length content_test))%nat.
Proof.
  intros pfs w.
  assert (Hnd : NoDup (map fst pfs)).
  { constructor; [|constructor; [intros []|constructor]].
    intros [H|[]]. vm_compute in H. discriminate H. }
  assert (Hel : dedup_eligible S_IFREG = true) by reflexivity.
  assert (Hty : Forall (fun q => ftype (f_mode (snd q)) = S_IFREG) pfs)
    by (repeat constructor).
  assert (Hw : cpio_entries w = build (map (fun q => (fst q, snd q, content_test)) pfs))
    by reflexivity.
  split; [auto|].
  apply (dedup_archive_size pfs S_IFREG content_test w); assumption.
Defined.

(** Writing with [compression=True]: [write] raises [AttributeError] and
    has only logged. *)
Lemma write_fails_without_opening_witness :
  let w := CPIOWriter_init empty_store "archive.cpio" (Some (VBool true)) None None in
  snd (compress (fun _ => true) (fun _ d => d) (fun _ d => d) w (CPIOWriter_bytes w) ([] ++ [EvLog Debug]))
    = inl AttributeError
  /\ snd (write (fun _ => true) (fun _ d => d) (fun _ d => d) w true []) = inl AttributeError
  /\ exists ls, fst (write (fun _ => true) (fun _ d => d) (fun _ d => d) w true []) = [] ++ map EvLog ls.
Proof.
  intros w. split; [reflexivity|].
  apply write_fails_without_opening. reflexivity.
Defined.


(** [compression=0] and [compression=7]. *)
Lemma compress_nonscheme_values_witness :
  ((VInt 0 = VNone \/ VInt 0 = VInt 0 \/ VInt 0 = VBool false)
   /\ compress (fun _ => true) (fun _ d => d) (fun _ d => d)
        (CPIOWriter_init empty_store "archive.cpio" (Some (VInt 0)) None None) content_test []
      = ([] ++ [EvLog Info], inr content_test))
  /\ (7 <> 0
   /\ compress (fun _ => true) (fun _ d => d) (fun _ d => d)
        (CPIOWriter_init empty_store "archive.cpio" (Some (VInt 7)) None None) content_test []
      = ([], inl UnavailableCompression)).
Proof.
  destruct (compress_nonscheme_values (fun _ => true) (fun _ d => d) (fun _ d => d)
              empty_store "archive.cpio" None None content_test []) as [H0 [H1 _]].
  split.
  - split; [right; left; reflexivity|]. apply H0. right. left. reflexivity.
  - split; [discriminate|]. apply H1. discriminate.
Defined.

(** [compression="XZ"]. *)
Lemma init_compression_case_insensitive_witness :
  lower "XZ" = "xz"%string /\ (fun _ : string => true) "lzma"%string = true
  /\ compress (fun _ => true) (fun chk d => hexn 8 chk ++ d) (fun _ d => d)
       (CPIOWriter_init empty_store "archive.cpio" (Some (VStr "XZ")) None None) content_test []
     = ([] ++ [EvLog Debug] ++ [EvLog Info], inr (hexn 8 CHECK_CRC32 ++ content_test)).
Proof.
  split; [reflexivity|]. split; [reflexivity|].
  apply (proj2 (init_compression_case_insensitive (fun _ => true) (fun chk d => hexn 8 chk ++ d)
                  (fun _ d => d) empty_store "archive.cpio" "XZ" None None content_test [])).
  - reflexivity.
  - reflexivity.
Defined.

(** Two xz writers with levels 3 and 5. *)
Lemma compress_reads_only_its_parameter_witness :
  let w1 := CPIOWriter_init empty_store "archive.cpio" (Some (VStr "xz")) (Some (VInt 3)) None in
  let w2 := CPIOWriter_init empty_store "archive.cpio" (Some (VStr "xz")) (Some (VInt 5)) None in
  compression w1 = compression w2
  /\ (select (compression w1) = SelXz -> xz_crc w1 = xz_crc w2)
  /\ (select (compression w1) = SelZstd -> compression_level w1 = compression_level w2)
  /\ compress (fun _ => true) (fun chk d => hexn 8 chk ++ d) (fun lv d => d) w1 content_test []
     = compress (fun _ => true) (fun chk d => hexn 8 chk ++ d) (fun lv d => d) w2 content_test [].
Proof.
  intros w1 w2.
  assert (Hc : compression w1 = compression w2) by reflexivity.
  assert (Hx : select (compression w1) = SelXz -> xz_crc w1 = xz_crc w2) by (intros; reflexivity).
  assert (Hz : select (compression w1) = SelZstd -> compression_level w1 = compression_level w2)
    by (intros H; discriminate H).
  split; [exact Hc|]. split; [exact Hx|]. split; [exact Hz|].
  apply compress_reads_only_its_parameter; assumption.
Defined.

(** [pycpio -s target] with no [-n]. *)
Lemma main_symlink_needs_name_witness :
  let a := mkArgs None None false None false None None (Some "target"%string) None None None
             None false false in
  str_truthy (a_symlink a) = true /\ str_truthy (a_name a) = false
  /\ exists t e, main (fun s => s) (fun _ _ => true) a [] = (t, inl e)
    /\ Forall (fun r => r < 3)%nat (map rank (calls t))
    /\ ((forall tr c, (fun (_ : list mevent) (_ : call) => true) tr c = true) -> e = ValueError).
Proof.
  intros a. split; [reflexivity|]. split; [reflexivity|].
  apply main_symlink_needs_name; reflexivity.
Defined.

(** [pycpio -c tty0 --major 4 --minor 0]. *)
Lemma main_chardev_needs_nonzero_numbers_witness :
  let a := mkArgs None None false None false None None None (Some "tty0"%string) (Some 4) (Some 0)
             None false false in
  str_truthy (a_chardev a) = true
  /\ (int_truthy (a_major a) = false \/ int_truthy (a_minor a) = false)
  /\ exists t e, main (fun s => s) (fun _ _ => true) a [] = (t, inl e)
    /\ Forall (fun r => r < 4)%nat (map rank (calls t))
    /\ ((forall tr c, (fun (_ : list mevent) (_ : call) => true) tr c = true) -> e = ValueError).
Proof.
  intros a. split; [reflexivity|]. split; [right; reflexivity|].
  apply main_chardev_needs_nonzero_numbers; [reflexivity|right; reflexivity].
Defined.

(** [pycpio -i in.cpio -o out.cpio]. *)
Lemma main_writes_after_requested_witness :
  let a := mkArgs (Some "in.cpio"%string) None false None false None None None None None None
             (Some "out.cpio"%string) false false in
  In (MCall (CWriteCpioFile "out.cpio")) (fst (main (fun s => s) (fun _ _ => true) a []))
  /\ requested a 1 = true
  /\ exists c t1 t2, rank c = 1%nat
    /\ fst (main (fun s => s) (fun _ _ => true) a []) = t1 ++ [MCall c] ++ t2
    /\ (fun (_ : list mevent) (_ : call) => true) t1 c = true
    /\ In (MCall (CWriteCpioFile "out.cpio")) t2.
Proof.
  intros a.
  assert (Hin : In (MCall (CWriteCpioFile "out.cpio")) (fst (main (fun s => s) (fun _ _ => true) a [])))
    by (vm_compute; right; right; left; reflexivity).
  split; [exact Hin|]. split; [reflexivity|].
  apply (main_writes_after_requested (fun s => s) (fun _ _ => true) a "out.cpio" 1 Hin).
  reflexivity.
Defined.
